(** * Wave-mode arrival detection: a shallow embedding of [modearrivals.py]

    The module finds local extrema of a sampled signal
    ([find_peaks_troughs]), estimates a noise threshold with a sliding window
    ([find_signal_threshold]) and derives two arrival indices from them
    ([get_extension_arrival], [get_flexure_arrival]).

    Modelling conventions.
    - A NumPy [float64] sample is an exact rational ([Q]); rounding and
      overflow are not modelled.  The non-finite values that NumPy produces
      without raising (division by zero, mean of an empty slice) are
      explicit: see [float64].  Where a property would depend on a result
      being rounded to zero, to infinity or to [nan], its statement keeps
      the operands away from those cases ([slope_floor], [float64_tiny],
      [float64_max], [no_nan_window]) or speaks of the value the code
      computed rather than of the exact one.
    - Locations and widths are integer-valued floats in the source; they are
      [Z] here.  Array indices are [nat].
    - A Python exception is a value of [pyexn]; a call either returns
      ([Ok]) or raises ([Raise]).  The two [while] loops run on fuel;
      [OutOfFuel] is shown unreachable for the fuel the callers pass. *)

From Stdlib Require Import String.
From Stdlib Require Import List ZArith QArith Qabs Lia Bool.
From Stdlib Require Import Sorted Permutation.
Import ListNotations.

Set Implicit Arguments.
Open Scope Q_scope.

(** ** Exceptions and results *)

Inductive pyexn : Type :=
| IndexError
| ValueError
| UnboundLocalError.

Inductive result (A : Type) : Type :=
| Ok (a : A)
| Raise (e : pyexn)
| OutOfFuel.

Arguments Ok {A} a.
Arguments Raise {A} e.
Arguments OutOfFuel {A}.

Definition bind {A B : Type} (m : result A) (k : A -> result B) : result B :=
  match m with
  | Ok a => k a
  | Raise e => Raise e
  | OutOfFuel => OutOfFuel
  end.

Notation "x <- m ;; k" := (bind m (fun x => k))
  (at level 61, m at next level, right associativity).

Definition class_name (e : pyexn) : string :=
  match e with
  | IndexError => "IndexError"
  | ValueError => "ValueError"
  | UnboundLocalError => "UnboundLocalError"
  end.

(** The error kinds that section 7 of the specification names. *)
Definition spec_error_kinds : list string :=
  ["InsufficientDataError"; "DegenerateSignalError"; "NoArrivalFoundError"]%string.

(** ** Rational comparisons as booleans *)

Definition Qltb (x y : Q) : bool := negb (Qle_bool y x).

(** Python's builtin [min(a, b)]: the first argument unless the second is
    strictly smaller. *)
Definition py_min (a b : Q) : Q := if Qltb b a then b else a.

(** ** NumPy helpers on lists *)

Section Arrays.
Context {A : Type}.

(** [a[i]] for a non-negative in-range index, [IndexError] otherwise. *)
Definition getitem (a : list A) (i : nat) : result A :=
  match nth_error a i with
  | Some x => Ok x
  | None => Raise IndexError
  end.

(** [a[-k]] for [k >= 1]. *)
Definition getitem_neg (a : list A) (k : nat) : result A :=
  if (k <=? length a)%nat then getitem a (length a - k) else Raise IndexError.

(** [a[lo:hi]]: slices clamp to the array. *)
Definition slice (a : list A) (lo hi : nat) : list A :=
  firstn (hi - lo) (skipn lo a).

(** [np.delete(a, 0)] *)
Definition np_delete_first (a : list A) : result (list A) :=
  match a with
  | [] => Raise IndexError
  | _ :: t => Ok t
  end.

(** [np.delete(a, -1)] *)
Definition np_delete_last (a : list A) : result (list A) :=
  match a with
  | [] => Raise IndexError
  | _ => Ok (removelast a)
  end.

(** [np.delete(a, np.arange(0, k))], for [k <= len(a)]. *)
Definition np_delete_prefix (a : list A) (k : nat) : list A := skipn k a.

(** [np.delete(a, np.arange(k, len(a)))] *)
Definition np_delete_from (a : list A) (k : nat) : list A := firstn k a.

Fixpoint where_from (p : A -> bool) (i : nat) (a : list A) : list nat :=
  match a with
  | [] => []
  | x :: t => if p x then i :: where_from p (S i) t else where_from p (S i) t
  end.

(** [np.where(cond)[0]]: the indices at which the condition holds. *)
Definition np_where (p : A -> bool) (a : list A) : list nat := where_from p 0 a.

(** [a[idx]] with an index array. *)
Fixpoint np_take (a : list A) (idx : list nat) : result (list A) :=
  match idx with
  | [] => Ok []
  | i :: t =>
      x <- getitem a i ;;
      r <- np_take a t ;;
      Ok (x :: r)
  end.

(** [a[i] = x] on an array of fixed length. *)
Fixpoint setitem (a : list A) (i : nat) (x : A) : list A :=
  match a, i with
  | [], _ => []
  | _ :: t, O => x :: t
  | y :: t, S j => y :: setitem t j x
  end.
End Arrays.

(** [np.diff(v)]: [v[1:] - v[:-1]]. *)
Definition np_diff (v : list Q) : list Q :=
  map (fun p => fst p - snd p) (combine (tl v) v).

(** Element-wise product of two arrays of equal length. *)
Definition np_mul (a b : list Q) : list Q :=
  map (fun p => fst p * snd p) (combine a b).

Definition np_abs (a : list Q) : list Q := map Qabs a.

(** ** [find_peaks_troughs] *)

(** The four returned arrays: [pks1, locs1, wds, prms]. *)
Record extrema : Type := mkExtrema {
  pks : list Q;
  locs : list Z;
  wds : list Z;
  prms : list Q
}.

(** One pass of the [for jj] loop body. *)
Definition width_prominence_step (locs1 : list Z) (pks1 : list Q)
    (acc : list Z * list Q) (jj : nat) : list Z * list Q :=
  let '(wds, prms) := acc in
  let w := (nth (jj + 1) locs1 0 - nth (jj - 1) locs1 0)%Z in
  let lfp := Qabs (nth jj pks1 0 - nth (jj - 1) pks1 0) in
  let rtp := Qabs (nth (jj + 1) pks1 0 - nth jj pks1 0) in
  (setitem wds jj w, setitem prms jj (py_min lfp rtp)).

Definition find_peaks_troughs (vctr : list Q) : result extrema :=
  let dff := np_diff vctr in
  let dff1 := 0 :: dff in
  let dff := dff ++ [0] in
  let mlt := np_mul dff dff1 in
  mlt <- np_delete_first mlt ;;
  mlt <- np_delete_last mlt ;;
  let idx := np_where (fun m => Qle_bool m 0) mlt in
  let locs := map S idx in
  pks <- np_take vctr locs ;;
  let locs1 := 1%Z :: map Z.of_nat locs ++ [Z.of_nat (length vctr)] in
  v0 <- getitem vctr 0 ;;
  vlast <- getitem_neg vctr 1 ;;
  let pks1 := v0 :: pks ++ [vlast] in
  let wds := repeat 0%Z (length pks1 - 1) in
  let prms := repeat 0 (length pks1 - 1) in
  let '(wds, prms) :=
    fold_left (width_prominence_step locs1 pks1) (seq 1 (length locs1 - 2)) (wds, prms) in
  wds <- np_delete_first wds ;;
  prms <- np_delete_first prms ;;
  locs1 <- np_delete_first locs1 ;;
  pks1 <- np_delete_first pks1 ;;
  locs1 <- np_delete_last locs1 ;;
  pks1 <- np_delete_last pks1 ;;
  Ok (mkExtrema pks1 locs1 wds prms).

(** ** Non-finite floats

    [x / 0] and the mean of an empty slice do not raise in NumPy: they give
    [inf] or [nan] (with a warning).  Finite values stay exact rationals. *)

Inductive float64 : Type :=
| Fin (q : Q)
| PInf
| NInf
| NaN.

Definition Qsgn_pick {A : Type} (q : Q) (neg zero pos : A) : A :=
  if Qltb q 0 then neg else if Qltb 0 q then pos else zero.

Definition fadd (x y : float64) : float64 :=
  match x, y with
  | NaN, _ | _, NaN => NaN
  | Fin a, Fin b => Fin (a + b)
  | PInf, NInf | NInf, PInf => NaN
  | PInf, _ | _, PInf => PInf
  | NInf, _ | _, NInf => NInf
  end.

Definition fmul (x y : float64) : float64 :=
  match x, y with
  | NaN, _ | _, NaN => NaN
  | Fin a, Fin b => Fin (a * b)
  | Fin a, PInf | PInf, Fin a => Qsgn_pick a NInf NaN PInf
  | Fin a, NInf | NInf, Fin a => Qsgn_pick a PInf NaN NInf
  | PInf, PInf | NInf, NInf => PInf
  | PInf, NInf | NInf, PInf => NInf
  end.

(** Zero is the positive zero: every divisor in the module is an absolute
    value or a count. *)
Definition fdiv (x y : float64) : float64 :=
  match x, y with
  | NaN, _ | _, NaN => NaN
  | Fin a, Fin b =>
      if Qeq_bool b 0 then Qsgn_pick a NInf NaN PInf else Fin (a / b)
  | Fin _, _ => Fin 0
  | PInf, Fin b => if Qltb b 0 then NInf else PInf
  | NInf, Fin b => if Qltb b 0 then PInf else NInf
  | _, _ => NaN
  end.

(** [x < y]; every comparison with [nan] is false. *)
Definition fltb (x y : float64) : bool :=
  match x, y with
  | Fin a, Fin b => Qltb a b
  | NInf, Fin _ | NInf, PInf | Fin _, PInf => true
  | _, _ => false
  end.

Definition feqb (x y : float64) : bool :=
  match x, y with
  | Fin a, Fin b => Qeq_bool a b
  | PInf, PInf | NInf, NInf => true
  | _, _ => false
  end.

Definition fgtb (x y : float64) : bool := fltb y x.
Definition fleb (x y : float64) : bool := fltb x y || feqb x y.

(** [bool(x)] of a float: non-zero, and [nan] is non-zero. *)
Definition truthy (x : float64) : bool :=
  match x with
  | Fin a => negb (Qeq_bool a 0)
  | _ => true
  end.

(** Python's builtin [max(a, b)]: the first argument unless the second is
    strictly greater. *)
Definition py_max (a b : float64) : float64 := if fgtb b a then b else a.

(** Python's builtin [max(iterable)]. *)
Definition py_max_list (a : list float64) : result float64 :=
  match a with
  | [] => Raise ValueError
  | x :: t => Ok (fold_left py_max t x)
  end.

Definition np_sum (a : list float64) : float64 := fold_left fadd a (Fin 0).

(** [np.mean(a)]; [nan] on an empty slice. *)
Definition np_mean (a : list float64) : float64 :=
  fdiv (np_sum a) (Fin (inject_Z (Z.of_nat (length a)))).

(** ** [find_signal_threshold] *)

Definition noiseMin : float64 := Fin (1 # 1000000).
Definition upcntLim : nat := 2.
Definition incr : nat := 20.

(** The loop variables other than [thresh]. *)
Record fst_state : Type := mkFst {
  strt : nat;
  endd : nat;
  tmpthresh : option float64;   (* [None]: not assigned yet *)
  flag2 : bool;
  upcnt : nat
}.

(** One pass of the [while flag1] body.  [prev] is [thresh] on entry
    ([None] for the initial empty list); the result is [thresh] on exit, the
    other variables, and [flag1]. *)
Definition fst_iter (vctr : list float64) (prev : option float64) (s : fst_state)
    : result (float64 * fst_state * bool) :=
  let tmpthresh :=
    match prev with
    | Some t => if truthy t then Some t else tmpthresh s
    | None => tmpthresh s
    end in
  let thresh := np_mean (slice vctr (strt s) (endd s)) in
  let strt := (strt s + incr)%nat in
  let endd := (endd s + incr)%nat in
  r <- (if fgtb thresh noiseMin then
          let upcnt := (upcnt s + 1)%nat in
          if (1 <? upcnt)%nat then
            match tmpthresh with
            | Some t => Ok (t, true, upcnt)
            | None => Raise UnboundLocalError
            end
          else Ok (thresh, true, upcnt)
        else if fleb thresh noiseMin && flag2 s then Ok (thresh, false, O)
        else Ok (thresh, flag2 s, upcnt s)) ;;
  let '(thresh, flag2, upcnt) := r in
  let flag1 :=
    negb ((length vctr <? endd)%nat
          || (fgtb thresh noiseMin && (upcntLim <? upcnt)%nat)) in
  Ok (thresh, mkFst strt endd tmpthresh flag2 upcnt, flag1).

Fixpoint fst_loop (fuel : nat) (vctr : list float64) (prev : option float64)
    (s : fst_state) : result float64 :=
  match fuel with
  | O => OutOfFuel
  | S fuel' =>
      r <- fst_iter vctr prev s ;;
      let '(thresh, s', flag1) := r in
      if flag1 then fst_loop fuel' vctr (Some thresh) s' else Ok thresh
  end.

Definition fst_init : fst_state := mkFst 0 25 None false 0.

Definition find_signal_threshold (vctr : list float64) : result float64 :=
  fst_loop (S (length vctr)) vctr None fst_init.

(** ** Shared normalization

    Lines 222-231 of [get_extension_arrival] and lines 355-364 of
    [get_flexure_arrival] are the same statements; they are one function
    here. *)

Fixpoint sort_insert (x : Q) (l : list Q) : list Q :=
  match l with
  | [] => [x]
  | y :: t => if Qle_bool x y then x :: l else y :: sort_insert x t
  end.

(** [np.sort(a)]: ascending. *)
Definition np_sort (a : list Q) : list Q := fold_right sort_insert [] a.

Definition np_divide (a : list Q) (d : Q) : list float64 :=
  map (fun p => fdiv (Fin p) (Fin d)) a.

(** [param = np.abs(pks*prominence)], before the rescaling. *)
Definition raw_param (pks prominence : list Q) : list Q :=
  np_abs (np_mul pks prominence).

Definition normalize (pks prominence : list Q) : result (list float64) :=
  let param := raw_param pks prominence in
  let nrm := rev (np_sort param) in
  n0 <- getitem nrm 0 ;;
  n1 <- getitem nrm 1 ;;
  if fgtb (fdiv (Fin n0) (Fin n1)) (Fin 5)
  then Ok (np_divide param n1)
  else Ok (np_divide param n0).

(** ** [get_flexure_arrival] *)

Definition get_flexure_arrival (sgnl : list Q) : result Z :=
  e <- find_peaks_troughs sgnl ;;
  param <- normalize (pks e) (prms e) ;;
  thresh <- find_signal_threshold param ;;
  idx <- getitem (np_where (fun p => fgtb p thresh) param) 0 ;;
  if (idx =? 0)%nat then Ok 0%Z else getitem (locs e) idx.

(** ** [get_extension_arrival] *)

(** The [while flag] loop that records [(strt, mean)] rows; [h] is
    [floor(nnlocs/2)]. *)
Fixpoint segment_loop (fuel : nat) (param : list float64) (h : nat)
    (refmaxthresh : float64) (tstmean : list (nat * float64))
    (cnt strt endd : nat) : result (list (nat * float64)) :=
  match fuel with
  | O => OutOfFuel
  | S fuel' =>
      let tstmean := tstmean ++ [(strt, np_mean (slice param strt endd))] in
      let strt := (endd + 1)%nat in
      let endd := (strt + h)%nat in
      if (length param <? endd)%nat then Ok tstmean
      else
        row <- getitem tstmean cnt ;;
        if fgtb (snd row) refmaxthresh then Ok tstmean
        else segment_loop fuel' param h refmaxthresh tstmean (cnt + 1) strt endd
  end.

Definition segment_means (param : list float64) (nnlocs : nat)
    (refmaxthresh : float64) : result (list (nat * float64)) :=
  let h := (nnlocs / 2)%nat in
  segment_loop (S (length param)) param h refmaxthresh [] 0 0 (0 + h).

(** Lines 276-293: the mean never exceeded [refmaxthresh]. *)
Definition branch_A (param : list float64) (locs : list Z)
    (tstmean : list (nat * float64)) (refnoisemean : float64) : result Z :=
  idx <- getitem_neg (np_where (fun r => fltb (snd r) refnoisemean) tstmean) 1 ;;
  let idx := if (idx =? 0)%nat then 1%nat else idx in
  row <- getitem tstmean idx ;;
  let param := np_delete_prefix param (fst row + 1) in
  let locs := np_delete_prefix locs (fst row + 1) in
  idx <- getitem (np_where (fun p => fgtb p refnoisemean) param) 0 ;;
  if (idx =? 0)%nat then Ok 0%Z else getitem locs idx.

(** Lines 319-325: the selected location and its zero check. *)
Definition pick_next_location (locs : list Z) (idx : nat) : result Z :=
  extIDX <- getitem locs (idx + 1) ;;
  if (extIDX =? 0)%Z then
    match getitem_neg locs 2 with
    | Ok l => Ok l
    | _ => getitem_neg locs 1
    end
  else Ok extIDX.

(** Lines 298-325: some mean exceeded [refmaxthresh]. *)
Definition branch_B (param : list float64) (locs : list Z)
    (tstmean : list (nat * float64)) (refnoisemean refmaxthresh : float64)
    : result Z :=
  idx <- getitem_neg (np_where (fun r => fltb (snd r) refnoisemean) tstmean) 1 ;;
  row <- getitem tstmean idx ;;
  let idx := (Z.of_nat (fst row) - 1)%Z in
  let param := np_delete_prefix param (Z.to_nat (idx + 1)) in
  let locs := np_delete_prefix locs (Z.to_nat (idx + 1)) in
  idx <- getitem (np_where (fun p => fgtb p refmaxthresh) param) 0 ;;
  let param := np_delete_from param (idx + 1) in
  let locs := np_delete_from locs (idx + 1) in
  idx <- getitem_neg (np_where (fun p => fleb p refnoisemean) param) 1 ;;
  pick_next_location locs idx.

Definition get_extension_arrival (sgnl : list Q) (noisemult noisemin : float64)
    : result Z :=
  e <- find_peaks_troughs sgnl ;;
  param <- normalize (pks e) (prms e) ;;
  tmpidx <- getitem (np_where (fun p => feqb p (Fin 1)) param) 0 ;;
  l <- getitem (locs e) tmpidx ;;
  let nnlim := Z.max (l / 4) (Z.of_nat (length sgnl) / 40) in
  nnlocs <- getitem_neg (np_where (fun l => (l <=? nnlim)%Z) (locs e)) 1 ;;
  let refnoisemean := py_max (np_mean (slice param 1 nnlocs)) noisemin in
  m <- py_max_list (slice param 1 nnlocs) ;;
  let refmaxthresh := py_max (fmul noisemult refnoisemean) m in
  tstmean <- segment_means param nnlocs refmaxthresh ;;
  last <- getitem_neg tstmean 1 ;;
  if fleb (snd last) refmaxthresh
  then branch_A param (locs e) tstmean refnoisemean
  else branch_B param (locs e) tstmean refnoisemean refmaxthresh.

(** The default arguments [noisemult = 10], [noisemin = 1e-6]. *)
Definition default_noisemult : float64 := Fin 10.
Definition default_noisemin : float64 := Fin (1 # 1000000).

Definition Qs (l : list Z) : list Q := map inject_Z l.

(** ** Notions used in the statements *)

(** The indices at which [find_peaks_troughs] reports an extremum, less one. *)
Definition sign_changes (vctr : list Q) : list nat :=
  np_where (fun m => Qle_bool m 0) (np_mul (tl (np_diff vctr)) (np_diff vctr)).

Definition strictly_increasing (v : list Q) : Prop := Sorted Qlt v.
Definition strictly_decreasing (v : list Q) : Prop := Sorted (fun a b => b < a) v.
Definition constant (v : list Q) : Prop :=
  forall a b, In a v -> In b v -> a == b.

Definition empty_result (e : extrema) : Prop :=
  pks e = [] /\ locs e = [] /\ wds e = [] /\ prms e = [].



(** The mean of the window that the next pass reads, and of the one before. *)
Definition window_mean (vctr : list float64) (s : fst_state) : float64 :=
  np_mean (slice vctr (strt s) (endd s)).
Definition previous_window_mean (vctr : list float64) (s : fst_state) : float64 :=
  np_mean (slice vctr (strt s - incr) (endd s - incr)).

(** What holds at every loop head. *)
Record fst_inv (vctr : list float64) (prev : option float64) (s : fst_state) : Prop := {
  inv_flag2 : (1 <= upcnt s)%nat -> flag2 s = true;
  inv_truthy : (1 <= upcnt s)%nat -> exists t, prev = Some t /\ truthy t = true;
  inv_recent : forall t, prev = Some t -> (upcnt s <= 1)%nat ->
                         t = previous_window_mean vctr s
}.

(** Signals used below: extrema at locations 1, 2, 3 and 12. *)
Definition quiet_start_signal : list Q :=
  Qs [0; 8; 4; 8; 7; 6; 5; 4; 3; 2; 1; 0; -8; 0]%Z.
Definition noisy_start_signal : list Q :=
  Qs [0; 1; -100; 1; 0; -1; -2; -3; -4; -5; -6; -7; -20; 0]%Z.

(** An element of [param] is covered when some recorded segment
    [strt, strt + h) contains its index. *)
Definition covered (h : nat) (tstmean : list (nat * float64)) (i : nat) : bool :=
  existsb (fun r => (fst r <=? i)%nat && (i <? fst r + h)%nat) tstmean.



(** The array after the assignments [a[j] = f j] for [j] in [js], in order. *)
Definition fill {A : Type} (f : nat -> A) (js : list nat) (a : list A) : list A :=
  fold_left (fun a j => setitem a j (f j)) js a.

(** [t] is the mean of a window [20k, 20k+25) that the loop of
    [find_signal_threshold] can read: the first one, or one that lies within
    the series. *)
Definition is_window_mean (vctr : list float64) (t : float64) : Prop :=
  exists k, (k = 0%nat \/ (20 * k + 25 <= length vctr)%nat) /\
            t = np_mean (slice vctr (20 * k) (20 * k + 25)).

(** A finite value between [lo] and [hi]. *)
Definition within (lo hi : Q) (x : float64) : Prop :=
  exists q, x = Fin q /\ lo <= q <= hi.

(** The smallest slope magnitude for which the products of successive slopes
    stay representable: two slopes of magnitude at least 2^-500 have a
    product of magnitude at least 2^-1000, far above the smallest float64. *)
Definition slope_floor : Q := 1 # (2 ^ 500).

(** Every difference of successive samples has magnitude at least [d]. *)
Definition slopes_at_least (d : Q) (v : list Q) : Prop :=
  Forall (fun s => d <= Qabs s) (np_diff v).





(** A finite value that is not negative. *)
Definition nonnegative (x : float64) : Prop := exists q, x = Fin q /\ 0 <= q.

(** * Properties *)

(** ** Array helpers *)

Section ArrayFacts.
Context {A : Type}.

Lemma where_from_bounds (p : A -> bool) (a : list A) :
  forall i j, In j (where_from p i a) -> (i <= j < i + length a)%nat.
Proof.
  induction a as [|x t IH]; intros i j Hin; simpl in *.
  - contradiction.
  - destruct (p x).
    + destruct Hin as [<- | Hin]; [lia | apply IH in Hin; lia].
    + apply IH in Hin. lia.
Qed.

Lemma where_from_increasing (p : A -> bool) (a : list A) :
  forall i, StronglySorted lt (where_from p i a).
Proof.
  induction a as [|x t IH]; intros i; simpl.
  - constructor.
  - destruct (p x); [|apply IH].
    constructor; [apply IH|].
    apply Forall_forall. intros j Hj.
    apply where_from_bounds in Hj. lia.
Qed.

Lemma where_from_none (p : A -> bool) (a : list A) :
  Forall (fun x => p x = false) a -> forall i, where_from p i a = [].
Proof.
  induction 1 as [|x t Hx _ IH]; intros i; simpl.
  - reflexivity.
  - rewrite Hx. apply IH.
Qed.

Lemma where_from_all (p : A -> bool) (a : list A) :
  Forall (fun x => p x = true) a -> forall i, where_from p i a = seq i (length a).
Proof.
  induction 1 as [|x t Hx _ IH]; intros i; simpl.
  - reflexivity.
  - rewrite Hx, IH. reflexivity.
Qed.

Lemma np_take_ok (a : list A) (idx : list nat) :
  Forall (fun i => (i < length a)%nat) idx ->
  exists r, np_take a idx = Ok r /\ length r = length idx.
Proof.
  induction 1 as [|i t Hi _ [r [Hr Hlen]]]; simpl.
  - exists []. split; reflexivity.
  - unfold getitem.
    destruct (nth_error a i) as [x|] eqn:Hx.
    + rewrite Hr. simpl. exists (x :: r). split; [reflexivity | simpl; congruence].
    + apply nth_error_None in Hx. lia.
Qed.

Lemma in_firstn (a : list A) (n : nat) (x : A) : In x (firstn n a) -> In x a.
Proof.
  intros H. rewrite <- (firstn_skipn n a). apply in_or_app. left. exact H.
Qed.

Lemma in_skipn (a : list A) (n : nat) (x : A) : In x (skipn n a) -> In x a.
Proof.
  intros H. rewrite <- (firstn_skipn n a). apply in_or_app. right. exact H.
Qed.

Lemma setitem_length (a : list A) :
  forall i x, length (setitem a i x) = length a.
Proof.
  induction a as [|y t IH]; intros [|j] x; simpl; auto.
Qed.
End ArrayFacts.

Lemma np_mul_length (a b : list Q) :
  length (np_mul a b) = Nat.min (length a) (length b).
Proof. unfold np_mul. rewrite length_map. apply length_combine. Qed.

Lemma np_diff_length (v : list Q) : length (np_diff v) = (length v - 1)%nat.
Proof.
  unfold np_diff. rewrite length_map, length_combine.
  destruct v; simpl; lia.
Qed.

(** After the two deletions [mlt] holds the products of successive
    differences. *)
Lemma mlt_interior (x : Q) (t : list Q) :
  np_delete_last (np_mul (t ++ [0]) (x :: t)) = Ok (np_mul t (x :: t)).
Proof.
  revert x. induction t as [|y t IH]; intros x.
  - reflexivity.
  - specialize (IH y).
    change (np_mul ((y :: t) ++ [0]) (x :: y :: t))
      with ((y * x) :: np_mul (t ++ [0]) (y :: t)).
    change (np_mul (y :: t) (x :: y :: t)) with ((y * x) :: np_mul t (y :: t)).
    unfold np_delete_last in *.
    destruct (np_mul (t ++ [0]) (y :: t)) as [|m r] eqn:Hm.
    + discriminate.
    + injection IH as IH. simpl removelast. rewrite IH. reflexivity.
Qed.

Lemma width_prominence_fold_length (locs1 : list Z) (pks1 : list Q) (js : list nat) :
  forall wds prms wds' prms',
    fold_left (width_prominence_step locs1 pks1) js (wds, prms) = (wds', prms') ->
    length wds' = length wds /\ length prms' = length prms.
Proof.
  induction js as [|j js IH]; intros w p w' p' H; simpl in H.
  - injection H as <- <-. split; reflexivity.
  - apply IH in H. rewrite !setitem_length in H. exact H.
Qed.

(** Closed form of the result: the call succeeds on two samples or more, the
    locations are the sign changes shifted by one, and the four arrays are
    aligned. *)
Lemma find_peaks_troughs_closed (vctr : list Q) :
  (2 <= length vctr)%nat ->
  exists e,
    find_peaks_troughs vctr = Ok e /\
    locs e = map (fun i => Z.of_nat (S i)) (sign_changes vctr) /\
    length (pks e) = length (locs e) /\
    length (wds e) = length (locs e) /\
    length (prms e) = length (locs e).
Proof.
  intros HN. unfold find_peaks_troughs, sign_changes.
  pose proof (np_diff_length vctr) as Hd.
  destruct (np_diff vctr) as [|x t] eqn:Hdiff; [simpl in Hd; lia|].
  simpl in Hd.
  change (np_mul ((x :: t) ++ [0]) (0 :: x :: t))
    with ((x * 0) :: np_mul (t ++ [0]) (x :: t)).
  cbn [np_delete_first bind tl]. rewrite mlt_interior. cbn [bind].
  set (idx := np_where (fun m => Qle_bool m 0) (np_mul t (x :: t))).
  assert (Hidx : Forall (fun i => (i < length vctr)%nat) (map S idx)).
  { apply Forall_forall. intros j Hj. apply in_map_iff in Hj.
    destruct Hj as [i [<- Hi]]. apply where_from_bounds in Hi.
    rewrite np_mul_length in Hi. simpl in Hi. lia. }
  destruct (np_take_ok vctr Hidx) as [pk [Hpk Hlen]].
  rewrite Hpk. cbn [bind].
  unfold getitem_neg, getitem.
  destruct (nth_error vctr 0) as [v0|] eqn:Hv0;
    [|apply nth_error_None in Hv0; lia].
  cbn [bind].
  replace (1 <=? length vctr)%nat with true by (symmetry; apply Nat.leb_le; lia).
  destruct (nth_error vctr (length vctr - 1)) as [vl|] eqn:Hvl;
    [|apply nth_error_None in Hvl; lia].
  cbn [bind].
  match goal with
  | |- context [fold_left ?f ?js (?w, ?p)] =>
      destruct (fold_left f js (w, p)) as [w' p'] eqn:Hfold
  end.
  apply width_prominence_fold_length in Hfold. destruct Hfold as [Hw Hp].
  rewrite repeat_length in Hw, Hp.
  cbn [length] in Hw, Hp. rewrite length_app in Hw, Hp. cbn [length] in Hw, Hp.
  destruct w' as [|w0 w']; [simpl in Hw; lia|].
  destruct p' as [|p0 p']; [simpl in Hp; lia|].
  cbn [np_delete_first bind].
  unfold np_delete_last.
  destruct (map Z.of_nat (map S idx) ++ [Z.of_nat (length vctr)]) eqn:Hl1;
    [destruct (map Z.of_nat (map S idx)); discriminate|].
  destruct (pk ++ [vl]) eqn:Hp1; [destruct pk; discriminate|].
  cbn [bind]. rewrite <- Hl1, <- Hp1, !removelast_last.
  eexists. split; [reflexivity|]. cbn [locs pks wds prms].
  rewrite map_map. split; [reflexivity|].
  rewrite length_map in *. simpl in Hw, Hp.
  repeat split; lia.
Qed.

(** ** The unit-test fixture

    C1: on the signal [0,1,0,-1,0,1,0,-1,0], [find_peaks_troughs] returns
    values [1,-1,1,-1], locations [1,3,5,7], widths [2,4,4,4] and
    prominences [1,2,2,1]. *)
Theorem find_peaks_troughs_fixture :
  find_peaks_troughs (Qs [0; 1; 0; -1; 0; 1; 0; -1; 0]%Z) =
  Ok (mkExtrema (Qs [1; -1; 1; -1]%Z) [1; 3; 5; 7]%Z [2; 4; 4; 4]%Z
                (Qs [1; 2; 2; 1]%Z)).
Proof. vm_compute. reflexivity. Qed.

(** ** Shape of the extremum set

    C2: for every signal of length N >= 3, [find_peaks_troughs] returns four
    arrays of one common length, with strictly increasing locations that lie
    strictly between 0 and N-1. *)
Theorem find_peaks_troughs_shape (vctr : list Q) :
  (3 <= length vctr)%nat ->
  exists e,
    find_peaks_troughs vctr = Ok e /\
    length (pks e) = length (locs e) /\
    length (wds e) = length (locs e) /\
    length (prms e) = length (locs e) /\
    StronglySorted Z.lt (locs e) /\
    Forall (fun l => (0 < l < Z.of_nat (length vctr) - 1)%Z) (locs e).
Proof.
  intros HN.
  destruct (@find_peaks_troughs_closed vctr) as [e [He [Hl [H1 [H2 H3]]]]]; [lia|].
  exists e. repeat (split; [assumption|]).
  rewrite Hl. unfold sign_changes, np_where. split.
  - generalize (@where_from_increasing _ (fun m => Qle_bool m 0)
                  (np_mul (tl (np_diff vctr)) (np_diff vctr)) 0).
    generalize (where_from (fun m => Qle_bool m 0) 0
                  (np_mul (tl (np_diff vctr)) (np_diff vctr))).
    induction 1 as [|i l _ IH Hi]; simpl; constructor.
    + exact IH.
    + rewrite Forall_map. revert Hi. apply Forall_impl. intros; lia.
  - rewrite Forall_map. apply Forall_forall. intros i Hi.
    apply where_from_bounds in Hi.
    rewrite np_mul_length, np_diff_length in Hi.
    assert (length (tl (np_diff vctr)) = length vctr - 2)%nat as Ht.
    { pose proof (np_diff_length vctr). destruct (np_diff vctr); simpl in *; lia. }
    rewrite Ht in Hi. lia.
Qed.

Lemma find_peaks_troughs_shape_witness :
  exists e,
    find_peaks_troughs (Qs [0; 1; 0; -1; 0; 1; 0; -1; 0]%Z) = Ok e /\
    length (pks e) = length (locs e) /\
    length (wds e) = length (locs e) /\
    length (prms e) = length (locs e) /\
    StronglySorted Z.lt (locs e) /\
    Forall (fun l => (0 < l < 9 - 1)%Z) (locs e).
Proof.
  apply (@find_peaks_troughs_shape (Qs [0; 1; 0; -1; 0; 1; 0; -1; 0]%Z)).
  simpl. lia.
Defined.

(** ** Monotonic and constant signals *)

Lemma np_diff_cons (a b : Q) (t : list Q) :
  np_diff (a :: b :: t) = (b - a) :: np_diff (b :: t).
Proof. reflexivity. Qed.

Lemma np_diff_sorted (R : Q -> Q -> Prop) (S : Q -> Prop) :
  (forall a b, R a b -> S (b - a)) ->
  forall v, Sorted R v -> Forall S (np_diff v).
Proof.
  intros HRS v Hs. induction Hs as [|a v Hs IH Hhd].
  - constructor.
  - destruct Hhd as [|b t Hab].
    + constructor.
    + rewrite np_diff_cons. constructor; [apply HRS, Hab | exact IH].
Qed.

(** Products of successive differences of one strict sign are positive, so
    none passes the [mlt <= 0] test. *)
Lemma same_sign_products (S : Q -> Prop) :
  (forall x y, S x -> S y -> 0 < y * x) ->
  forall d, Forall S d ->
            Forall (fun m => Qle_bool m 0 = false) (np_mul (tl d) d).
Proof.
  intros Hmul d Hd. destruct Hd as [|x t Hx Ht]; [constructor|].
  cbn [tl]. revert x Hx. induction Ht as [|y t Hy Ht IH]; intros x Hx.
  - constructor.
  - change (np_mul (y :: t) (x :: y :: t)) with ((y * x) :: np_mul t (y :: t)).
    constructor; [|apply IH, Hy].
    destruct (Qle_bool (y * x) 0) eqn:Hle; [|reflexivity].
    apply Qle_bool_iff in Hle. specialize (Hmul x y Hx Hy).
    exfalso. apply (Qlt_irrefl 0). eapply Qlt_le_trans; eassumption.
Qed.

Lemma monotonic_no_sign_change (v : list Q) :
  strictly_increasing v \/ strictly_decreasing v -> sign_changes v = [].
Proof.
  intros [Hinc | Hdec]; unfold sign_changes, np_where; apply where_from_none.
  - apply same_sign_products with (S := fun d => 0 < d).
    + intros x y Hx Hy.
      setoid_replace 0 with (0 * x) by ring.
      apply Qmult_lt_compat_r; assumption.
    + apply np_diff_sorted with (R := Qlt); [|exact Hinc].
      intros a b Hab. unfold Qminus. rewrite <- (Qplus_opp_r a).
      apply Qplus_lt_l. exact Hab.
  - apply same_sign_products with (S := fun d => d < 0).
    + intros x y Hx Hy.
      setoid_replace (y * x) with ((- y) * (- x)) by ring.
      setoid_replace 0 with (0 * (- x)) by ring.
      assert (0 < - x) as Hx'.
      { setoid_replace 0 with (- 0) by ring. apply Qopp_lt_compat. exact Hx. }
      assert (0 < - y) as Hy'.
      { setoid_replace 0 with (- 0) by ring. apply Qopp_lt_compat. exact Hy. }
      apply Qmult_lt_compat_r; assumption.
    + apply np_diff_sorted with (R := fun a b => b < a); [|exact Hdec].
      intros a b Hab. unfold Qminus. rewrite <- (Qplus_opp_r a).
      apply Qplus_lt_l. exact Hab.
Qed.

Lemma constant_all_sign_changes (v : list Q) :
  constant v -> sign_changes v = seq 0 (length v - 2).
Proof.
  intros Hc. unfold sign_changes, np_where.
  assert (Forall (fun d => d == 0) (np_diff v)) as Hd.
  { unfold constant in Hc. induction v as [|a [|b t] IH].
    - constructor.
    - constructor.
    - rewrite np_diff_cons. constructor.
      + rewrite (Hc b a); [ring | right; left; reflexivity | left; reflexivity].
      + apply IH. intros x y Hx Hy. apply Hc; right; assumption. }
  assert (length (np_mul (tl (np_diff v)) (np_diff v)) = length v - 2)%nat as Hlen.
  { rewrite np_mul_length. pose proof (np_diff_length v).
    destruct (np_diff v); simpl in *; lia. }
  rewrite <- Hlen. apply where_from_all. clear Hlen.
  destruct Hd as [|x t Hx Ht]; [constructor|]. cbn [tl].
  revert x Hx. induction Ht as [|y t Hy Ht IH]; intros x Hx.
  - constructor.
  - change (np_mul (y :: t) (x :: y :: t)) with ((y * x) :: np_mul t (y :: t)).
    constructor; [|apply IH, Hy].
    apply Qle_bool_iff. rewrite Hx. setoid_replace (y * 0) with 0 by ring.
    apply Qle_refl.
Qed.

(** C4, as stated, fails on a constant signal: every interior sample of
    [5,5,5,5] is reported as an extremum. *)
Lemma constant_signal_reports_extrema :
  let v := Qs [5; 5; 5; 5]%Z in
  (3 <= length v)%nat /\ constant v /\
  find_peaks_troughs v = Ok (mkExtrema (Qs [5; 5]%Z) [1; 2]%Z [1; 3]%Z (Qs [0; 0]%Z)) /\
  ~ empty_result (mkExtrema (Qs [5; 5]%Z) [1; 2]%Z [1; 3]%Z (Qs [0; 0]%Z)).
Proof.
  cbv zeta. split; [simpl; lia|]. split; [|split].
  - intros a b Ha Hb. simpl in Ha, Hb.
    repeat (destruct Ha as [<- | Ha]; [|]); try contradiction;
      repeat (destruct Hb as [<- | Hb]; [|]); try contradiction; reflexivity.
  - vm_compute. reflexivity.
  - intros [_ [H _]]. discriminate H.
Qed.

(** Products of successive differences inherit a bound from the differences. *)
Lemma successive_products (S T : Q -> Prop) :
  (forall x y, S x -> S y -> T (y * x)) ->
  forall d, Forall S d -> Forall T (np_mul (tl d) d).
Proof.
  intros Hmul d Hd. destruct Hd as [|x t Hx Ht]; [constructor|].
  cbn [tl]. revert x Hx. induction Ht as [|y t Hy Ht IH]; intros x Hx.
  - constructor.
  - change (np_mul (y :: t) (x :: y :: t)) with ((y * x) :: np_mul t (y :: t)).
    constructor; [apply Hmul; assumption | apply IH, Hy].
Qed.

Lemma slope_floor_nonneg : 0 <= slope_floor.
Proof. unfold Qle. vm_compute. discriminate. Qed.

Lemma Forall_and {A : Type} (P R : A -> Prop) (l : list A) :
  Forall P l -> Forall R l -> Forall (fun x => P x /\ R x) l.
Proof.
  intros HP. induction HP as [|x l Hx HP IH]; intros HR.
  - constructor.
  - inversion HR as [|x' l' Hx' HR']; subst.
    constructor; [split; assumption | apply IH, HR'].
Qed.

(** When every slope of a strictly monotonic signal has magnitude at least
    [d], every product of successive slopes is at least [d * d]. *)
Lemma monotonic_products_at_least (d : Q) (v : list Q) :
  0 <= d ->
  strictly_increasing v \/ strictly_decreasing v ->
  slopes_at_least d v ->
  Forall (fun m => d * d <= m) (np_mul (tl (np_diff v)) (np_diff v)).
Proof.
  intros Hd [Hinc | Hdec] Hs.
  - apply successive_products with (S := fun x => 0 < x /\ d <= Qabs x).
    + intros x y [Hx Hxd] [Hy Hyd].
      rewrite Qabs_pos in Hxd by apply Qlt_le_weak, Hx.
      rewrite Qabs_pos in Hyd by apply Qlt_le_weak, Hy.
      apply Qmult_le_compat_nonneg; split; assumption.
    + apply Forall_and; [|exact Hs].
      apply np_diff_sorted with (R := Qlt); [|exact Hinc].
      intros a b Hab. unfold Qminus. rewrite <- (Qplus_opp_r a).
      apply Qplus_lt_l. exact Hab.
  - apply successive_products with (S := fun x => x < 0 /\ d <= Qabs x).
    + intros x y [Hx Hxd] [Hy Hyd].
      rewrite Qabs_neg in Hxd by apply Qlt_le_weak, Hx.
      rewrite Qabs_neg in Hyd by apply Qlt_le_weak, Hy.
      setoid_replace (y * x) with ((- y) * (- x)) by ring.
      apply Qmult_le_compat_nonneg; split; assumption.
    + apply Forall_and; [|exact Hs].
      apply np_diff_sorted with (R := fun a b => b < a); [|exact Hdec].
      intros a b Hab. unfold Qminus. rewrite <- (Qplus_opp_r a).
      apply Qplus_lt_l. exact Hab.
Qed.

(** C4, amended: for every strictly monotonic signal of length >= 3 whose
    successive samples differ by at least 2^-500 in magnitude,
    every product of successive slopes is at least 2^-1000 (none reaches the
    [mlt <= 0] test by being rounded to zero) and [find_peaks_troughs]
    returns four empty arrays. *)
Theorem monotonic_signal_empty_result (vctr : list Q) :
  (3 <= length vctr)%nat ->
  strictly_increasing vctr \/ strictly_decreasing vctr ->
  slopes_at_least slope_floor vctr ->
  Forall (fun m => slope_floor * slope_floor <= m)
         (np_mul (tl (np_diff vctr)) (np_diff vctr)) /\
  find_peaks_troughs vctr = Ok (mkExtrema [] [] [] []).
Proof.
  intros HN Hmono Hslopes.
  split; [apply (monotonic_products_at_least slope_floor_nonneg Hmono Hslopes)|].
  destruct (@find_peaks_troughs_closed vctr) as [e [He [Hl [H1 [H2 H3]]]]]; [lia|].
  rewrite He. rewrite (monotonic_no_sign_change Hmono) in Hl.
  destruct e as [p l w r]. cbn [pks locs wds prms] in *. subst l.
  destruct p; [|discriminate H1]. destruct w; [|discriminate H2].
  destruct r; [|discriminate H3]. reflexivity.
Qed.

Lemma monotonic_signal_empty_result_witness :
  let v := Qs [1; 2; 4; 7]%Z in
  Forall (fun m => slope_floor * slope_floor <= m) (np_mul (tl (np_diff v)) (np_diff v)) /\
  find_peaks_troughs v = Ok (mkExtrema [] [] [] []).
Proof.
  cbv zeta. apply (@monotonic_signal_empty_result (Qs [1; 2; 4; 7]%Z)).
  - simpl. lia.
  - left. unfold strictly_increasing, Qs. simpl.
    repeat (constructor; try reflexivity).
  - unfold slopes_at_least, Qs. cbn [map np_diff].
    repeat constructor; unfold Qle; vm_compute; discriminate.
Defined.

(** A constant signal of length N yields the N-2 interior locations. *)
Lemma constant_signal_locations (vctr : list Q) :
  (2 <= length vctr)%nat -> constant vctr ->
  exists e, find_peaks_troughs vctr = Ok e /\
            locs e = map (fun i => Z.of_nat (S i)) (seq 0 (length vctr - 2)).
Proof.
  intros HN Hc.
  destruct (@find_peaks_troughs_closed vctr HN) as [e [He [Hl _]]].
  exists e. split; [exact He|]. rewrite Hl, (constant_all_sign_changes Hc).
  reflexivity.
Qed.

(** Fewer than two samples: [np.delete(mlt, -1)] raises. *)
Lemma find_peaks_troughs_short (vctr : list Q) :
  (length vctr < 2)%nat -> find_peaks_troughs vctr = Raise IndexError.
Proof.
  destruct vctr as [|a [|b t]]; simpl; intros H; try reflexivity; lia.
Qed.

Lemma find_peaks_troughs_locations (vctr : list Q) (e : extrema) :
  find_peaks_troughs vctr = Ok e ->
  Forall (fun l => (1 <= l < Z.of_nat (length vctr) - 1)%Z) (locs e).
Proof.
  intros He.
  destruct (Nat.lt_ge_cases (length vctr) 2) as [Hlt | Hge].
  - rewrite (find_peaks_troughs_short vctr Hlt) in He. discriminate.
  - destruct (@find_peaks_troughs_closed vctr Hge) as [e' [He' [Hl _]]].
    rewrite He in He'. injection He' as <-.
    rewrite Hl, Forall_map. apply Forall_forall. intros i Hi.
    apply where_from_bounds in Hi.
    rewrite np_mul_length, np_diff_length in Hi.
    assert (length (tl (np_diff vctr)) = length vctr - 2)%nat as Ht.
    { pose proof (np_diff_length vctr). destruct (np_diff vctr); simpl in *; lia. }
    rewrite Ht in Hi. lia.
Qed.

(** ** Locations are never zero

    C10: every location returned by [find_peaks_troughs] is at least 1, so
    on any window that Branch B cuts out of [locs] the selected location
    [locs[idx+1]] is non-zero whenever the index is in range: lines 319-325
    behave as the single lookup of line 319 and the fallback is never taken. *)
Theorem locations_never_zero_no_fallback (sgnl : list Q) (e : extrema) :
  find_peaks_troughs sgnl = Ok e ->
  Forall (fun l => (1 <= l)%Z) (locs e) /\
  forall (n k idx : nat),
    let window := np_delete_from (np_delete_prefix (locs e) n) k in
    pick_next_location window idx = getitem window (idx + 1) /\
    (forall l, nth_error window (idx + 1) = Some l -> l <> 0%Z).
Proof.
  intros He. apply find_peaks_troughs_locations in He.
  assert (Forall (fun l => (1 <= l)%Z) (locs e)) as Hpos.
  { revert He. apply Forall_impl. intros; lia. }
  split; [exact Hpos|]. intros n k idx window.
  assert (forall l, nth_error window (idx + 1) = Some l -> l <> 0%Z) as Hnz.
  { intros l Hl. apply nth_error_In in Hl.
    unfold window, np_delete_from, np_delete_prefix in Hl.
    apply in_firstn, in_skipn in Hl.
    rewrite Forall_forall in Hpos. specialize (Hpos l Hl). lia. }
  split; [|exact Hnz].
  unfold pick_next_location, getitem.
  destruct (nth_error window (idx + 1)) as [l|] eqn:Hl; cbn [bind]; [|reflexivity].
  specialize (Hnz l eq_refl).
  destruct (l =? 0)%Z eqn:Hz; [apply Z.eqb_eq in Hz; contradiction | reflexivity].
Qed.

Lemma locations_never_zero_no_fallback_witness :
  let e := mkExtrema (Qs [1; -1; 1; -1]%Z) [1; 3; 5; 7]%Z [2; 4; 4; 4]%Z
                     (Qs [1; 2; 2; 1]%Z) in
  Forall (fun l => (1 <= l)%Z) (locs e) /\
  forall (n k idx : nat),
    let window := np_delete_from (np_delete_prefix (locs e) n) k in
    pick_next_location window idx = getitem window (idx + 1) /\
    (forall l, nth_error window (idx + 1) = Some l -> l <> 0%Z).
Proof.
  apply (@locations_never_zero_no_fallback (Qs [0; 1; 0; -1; 0; 1; 0; -1; 0]%Z)).
  vm_compute. reflexivity.
Defined.

(** ** Normalization *)

Lemma sort_insert_perm (x : Q) (l : list Q) : Permutation (x :: l) (sort_insert x l).
Proof.
  induction l as [|y t IH]; simpl.
  - apply Permutation_refl.
  - destruct (Qle_bool x y).
    + apply Permutation_refl.
    + eapply perm_trans; [apply perm_swap|]. apply perm_skip, IH.
Qed.

Lemma np_sort_perm (a : list Q) : Permutation a (np_sort a).
Proof.
  induction a as [|x t IH]; simpl.
  - constructor.
  - eapply perm_trans; [apply perm_skip, IH | apply sort_insert_perm].
Qed.

Lemma sort_insert_sorted (x : Q) (l : list Q) :
  StronglySorted Qle l -> StronglySorted Qle (sort_insert x l).
Proof.
  induction 1 as [|y t Hs IH Hy]; simpl.
  - repeat constructor.
  - destruct (Qle_bool x y) eqn:Hxy.
    + apply Qle_bool_iff in Hxy. constructor.
      * constructor; assumption.
      * constructor; [exact Hxy|].
        revert Hy. apply Forall_impl. intros z Hz. eapply Qle_trans; eassumption.
    + constructor; [exact IH|].
      apply (Permutation_Forall (sort_insert_perm x t)).
      constructor; [|exact Hy].
      apply Qlt_le_weak, Qnot_le_lt. intros Hle.
      apply Qle_bool_iff in Hle. congruence.
Qed.

Lemma np_sort_sorted (a : list Q) : StronglySorted Qle (np_sort a).
Proof.
  induction a as [|x t IH]; simpl; [constructor | apply sort_insert_sorted, IH].
Qed.

Lemma sorted_last_largest (l : list Q) (x : Q) :
  StronglySorted Qle (l ++ [x]) -> Forall (fun y => y <= x) l.
Proof.
  induction l as [|y t IH]; simpl; intros Hs.
  - constructor.
  - apply StronglySorted_inv in Hs. destruct Hs as [Hs Hy].
    constructor; [|apply IH, Hs].
    rewrite Forall_forall in Hy. apply Hy, in_or_app. right. left. reflexivity.
Qed.

(** [nrm[0]] is the largest raw value and [nrm[1]] is one of the values. *)
Lemma nrm_head (param : list Q) (n0 n1 : Q) (rest : list Q) :
  rev (np_sort param) = n0 :: n1 :: rest ->
  In n0 param /\ In n1 param /\ Forall (fun p => p <= n0) param /\ n1 <= n0.
Proof.
  intros Hrev.
  assert (np_sort param = (rev rest ++ [n1]) ++ [n0]) as Hs.
  { rewrite <- (rev_involutive (np_sort param)), Hrev. reflexivity. }
  pose proof (np_sort_sorted param) as Hsorted. rewrite Hs in Hsorted.
  apply sorted_last_largest in Hsorted.
  pose proof (np_sort_perm param) as Hperm.
  assert (In n0 (np_sort param)) as Hin0.
  { rewrite Hs. apply in_or_app. right. left. reflexivity. }
  assert (In n1 (np_sort param)) as Hin1.
  { rewrite Hs. apply in_or_app. left. apply in_or_app. right. left. reflexivity. }
  assert (n1 <= n0) as H10.
  { rewrite Forall_forall in Hsorted. apply Hsorted.
    apply in_or_app. right. left. reflexivity. }
  repeat split.
  - eapply Permutation_in; [apply Permutation_sym, Hperm | exact Hin0].
  - eapply Permutation_in; [apply Permutation_sym, Hperm | exact Hin1].
  - apply (Permutation_Forall (Permutation_sym Hperm)). rewrite Hs.
    apply Forall_app. split; [exact Hsorted|].
    constructor; [apply Qle_refl | constructor].
  - exact H10.
Qed.

Lemma fleb_Fin (a b : Q) : a <= b -> fleb (Fin a) (Fin b) = true.
Proof.
  intros Hab. unfold fleb, fltb, feqb, Qltb.
  destruct (Qle_bool b a) eqn:Hba; [|reflexivity]. simpl.
  apply Qle_bool_iff in Hba. apply Qeq_bool_iff, Qle_antisym; assumption.
Qed.









(** ** The sliding-window threshold *)

Lemma fst_inv_init (vctr : list float64) : fst_inv vctr None fst_init.
Proof.
  split; simpl; intros; try lia; discriminate.
Qed.

Lemma fgtb_noiseMin_truthy (m : float64) : fgtb m noiseMin = true -> truthy m = true.
Proof.
  destruct m as [q| | |]; simpl; try reflexivity; try discriminate.
  unfold fgtb, fltb, noiseMin, Qltb. intros H.
  apply negb_true_iff in H. apply negb_true_iff.
  destruct (Qeq_bool q 0) eqn:Hq; [|reflexivity].
  apply Qeq_bool_iff in Hq.
  assert (Qle_bool q (1 # 1000000) = true) as Hle.
  { apply Qle_bool_iff. rewrite Hq. discriminate. }
  congruence.
Qed.

Lemma not_gt_not_le_truthy (m : float64) :
  fgtb m noiseMin = false -> fleb m noiseMin = false -> truthy m = true.
Proof.
  destruct m as [q| | |]; simpl; try reflexivity; try discriminate.
  unfold fgtb, fleb, fltb, feqb, noiseMin, Qltb. intros Hgt Hle.
  apply negb_false_iff in Hgt. apply orb_false_iff in Hle.
  destruct Hle as [Hlt Hne]. apply negb_false_iff in Hlt.
  apply Qle_bool_iff in Hgt. apply Qle_bool_iff in Hlt.
  exfalso.
  assert (Qeq_bool q (1 # 1000000) = true) as Heq
    by (apply Qeq_bool_iff, Qle_antisym; assumption).
  congruence.
Qed.

(** One pass of the loop from a loop head that satisfies the invariant. *)
Lemma fst_iter_spec (vctr : list float64) (prev : option float64) (s : fst_state) :
  fst_inv vctr prev s ->
  exists t s' flag1,
    fst_iter vctr prev s = Ok (t, s', flag1) /\
    strt s' = (strt s + incr)%nat /\
    endd s' = (endd s + incr)%nat /\
    (fgtb (window_mean vctr s) noiseMin = true ->
     upcnt s' = (upcnt s + 1)%nat /\
     ((1 <= upcnt s)%nat -> prev = Some t) /\
     (upcnt s = 0%nat -> t = window_mean vctr s)) /\
    (fgtb (window_mean vctr s) noiseMin = false ->
     t = window_mean vctr s /\ (upcnt s' <= upcnt s)%nat) /\
    flag1 = negb ((length vctr <? endd s')%nat
                  || (fgtb t noiseMin && (upcntLim <? upcnt s')%nat)) /\
    fst_inv vctr (Some t) s'.
Proof.
  intros [Hflag Htruthy Hrecent].
  unfold fst_iter, window_mean.
  set (m := np_mean (slice vctr (strt s) (endd s))).
  assert (forall tt f2 u,
             m = previous_window_mean vctr
                   (mkFst (strt s + incr) (endd s + incr) tt f2 u)) as Hprevious.
  { intros. unfold previous_window_mean. simpl strt; simpl endd.
    rewrite !Nat.add_sub. reflexivity. }
  destruct (fgtb m noiseMin) eqn:Hgt.
  - (* the window mean exceeds the noise floor *)
    destruct (1 <? upcnt s + 1)%nat eqn:Hup.
    + apply Nat.ltb_lt in Hup.
      destruct Htruthy as [t [Hprev Ht]]; [lia|]. subst prev. rewrite Ht.
      cbn [bind]. do 3 eexists. split; [reflexivity|].
      split; [reflexivity|]. split; [reflexivity|].
      split; [intros _; simpl upcnt; repeat split; intros; lia|].
      split; [discriminate|]. split; [reflexivity|].
      split; simpl upcnt; simpl flag2.
      * reflexivity.
      * intros _. exists t. split; [reflexivity | exact Ht].
      * intros t' _ Hle. lia.
    + apply Nat.ltb_ge in Hup. assert (upcnt s = 0)%nat as H0 by lia.
      cbn [bind]. do 3 eexists. split; [reflexivity|].
      split; [reflexivity|]. split; [reflexivity|].
      split; [intros _; simpl upcnt; repeat split; intros; try reflexivity; lia|].
      split; [discriminate|]. split; [reflexivity|].
      split; simpl upcnt; simpl flag2.
      * reflexivity.
      * intros _. exists m. split; [reflexivity | apply fgtb_noiseMin_truthy, Hgt].
      * intros t' Ht' _. injection Ht' as <-. apply Hprevious.
  - (* it does not *)
    destruct (fleb m noiseMin && flag2 s) eqn:Hreset.
    + cbn [bind]. do 3 eexists. split; [reflexivity|].
      split; [reflexivity|]. split; [reflexivity|].
      split; [discriminate|].
      split; [intros _; simpl upcnt; split; [reflexivity | lia]|].
      split; [reflexivity|].
      split; simpl upcnt; simpl flag2.
      * intros; lia.
      * intros; lia.
      * intros t' Ht' _. injection Ht' as <-. apply Hprevious.
    + cbn [bind]. do 3 eexists. split; [reflexivity|].
      split; [reflexivity|]. split; [reflexivity|].
      split; [discriminate|].
      split; [intros _; simpl upcnt; split; [reflexivity | lia]|].
      split; [reflexivity|].
      split; simpl upcnt; simpl flag2.
      * exact Hflag.
      * intros Hup. exists m. split; [reflexivity|].
        specialize (Hflag Hup). rewrite Hflag, andb_true_r in Hreset.
        apply not_gt_not_le_truthy; assumption.
      * intros t' Ht' _. injection Ht' as <-. apply Hprevious.
Qed.


(** The loop returns: it never reads an unassigned [tmpthresh] and the fuel
    passed by [find_signal_threshold] is enough. *)
Lemma fst_loop_returns (vctr : list float64) (fuel : nat) :
  forall prev s,
    fst_inv vctr prev s ->
    (1 <= fuel)%nat ->
    (length vctr < endd s + incr * fuel)%nat ->
    exists t, fst_loop fuel vctr prev s = Ok t.
Proof.
  induction fuel as [|fuel IH]; intros prev s Hinv Hfuel Hlen; [lia|].
  destruct (fst_iter_spec Hinv) as [t [s' [f [Heq [_ [Hend [_ [_ [Hf Hinv']]]]]]]]].
  cbn [fst_loop]. rewrite Heq. cbn [bind].
  destruct f; [|exists t; reflexivity].
  symmetry in Hf. apply negb_true_iff, orb_false_iff in Hf.
  destruct Hf as [Hf _]. apply Nat.ltb_ge in Hf.
  apply IH; [exact Hinv' | unfold incr in *; lia | unfold incr in *; lia].
Qed.

Lemma find_signal_threshold_returns (vctr : list float64) :
  exists t, find_signal_threshold vctr = Ok t.
Proof.
  unfold find_signal_threshold.
  apply fst_loop_returns; [apply fst_inv_init | lia | cbn [endd fst_init]; unfold incr; lia].
Qed.

(** *** Series without [nan] window means

    When no window the loop reads has a [nan] mean, a window mean that does
    not exceed the noise floor is at or below it, so a positive streak
    counter implies that the working threshold exceeds the noise floor, and
    the loop stops exactly when the next window would pass the end or the
    counter exceeds 2. *)




Lemma slice_nonempty {A : Type} (a : list A) (lo hi : nat) :
  (lo < hi)%nat -> (lo < length a)%nat -> slice a lo hi <> [].
Proof.
  intros Hlt Hlen Hnil. apply (f_equal (@length A)) in Hnil.
  unfold slice in Hnil. rewrite length_firstn, length_skipn in Hnil.
  simpl in Hnil. lia.
Qed.










(** ** The detectors when nothing crosses the threshold *)

(** Whenever no entry of [param] exceeds the threshold, the lookup
    [idx[0, 0]] on the empty index array raises before the test
    [if not idx] is reached. *)
Lemma flexure_no_crossing (sgnl : list Q) (e : extrema) (param : list float64)
    (thresh : float64) :
  find_peaks_troughs sgnl = Ok e ->
  normalize (pks e) (prms e) = Ok param ->
  find_signal_threshold param = Ok thresh ->
  np_where (fun p => fgtb p thresh) param = [] ->
  get_flexure_arrival sgnl = Raise IndexError.
Proof.
  intros He Hp Ht Hw. unfold get_flexure_arrival.
  rewrite He. cbn [bind]. rewrite Hp. cbn [bind]. rewrite Ht. cbn [bind].
  rewrite Hw. reflexivity.
Qed.

(** The value 0 is returned exactly when the first crossing is at index 0. *)
Lemma flexure_first_crossing (sgnl : list Q) (e : extrema) (param : list float64)
    (thresh : float64) (i : nat) (rest : list nat) :
  find_peaks_troughs sgnl = Ok e ->
  normalize (pks e) (prms e) = Ok param ->
  find_signal_threshold param = Ok thresh ->
  np_where (fun p => fgtb p thresh) param = i :: rest ->
  get_flexure_arrival sgnl = if (i =? 0)%nat then Ok 0%Z else getitem (locs e) i.
Proof.
  intros He Hp Ht Hw. unfold get_flexure_arrival.
  rewrite He. cbn [bind]. rewrite Hp. cbn [bind]. rewrite Ht. cbn [bind].
  rewrite Hw. reflexivity.
Qed.

Lemma branch_A_no_crossing (param : list float64) (locs : list Z)
    (tstmean : list (nat * float64)) (refnoisemean : float64) (i : nat)
    (row : nat * float64) :
  getitem_neg (np_where (fun r => fltb (snd r) refnoisemean) tstmean) 1 = Ok i ->
  getitem tstmean (if (i =? 0)%nat then 1%nat else i) = Ok row ->
  np_where (fun p => fgtb p refnoisemean) (np_delete_prefix param (fst row + 1)) = [] ->
  branch_A param locs tstmean refnoisemean = Raise IndexError.
Proof.
  intros Hi Hrow Hw. unfold branch_A.
  rewrite Hi. cbn [bind]. rewrite Hrow. cbn [bind]. rewrite Hw. reflexivity.
Qed.

(** When no recorded segment mean is below [refnoisemean], the lookup
    [idx[0, -1]] raises before the default [idx = 1] is reached. *)
Lemma branch_A_no_quiet_segment (param : list float64) (locs : list Z)
    (tstmean : list (nat * float64)) (refnoisemean : float64) :
  np_where (fun r => fltb (snd r) refnoisemean) tstmean = [] ->
  branch_A param locs tstmean refnoisemean = Raise IndexError.
Proof.
  intros Hw. unfold branch_A. rewrite Hw. reflexivity.
Qed.

(** C3: the detectors do not return the sentinel 0 when nothing crosses the
    threshold.  On [1,-1,1,-1] every normalized value equals the threshold 1
    and [get_flexure_arrival] raises IndexError; on [noisy_start_signal]
    Branch A of [get_extension_arrival] is left with one value, 1, below
    the reference noise 101/4, and the call raises IndexError. *)
Theorem no_crossing_raises_instead_of_sentinel :
  (exists e param thresh,
     find_peaks_troughs (Qs [1; -1; 1; -1]%Z) = Ok e /\
     normalize (pks e) (prms e) = Ok param /\
     find_signal_threshold param = Ok thresh /\
     np_where (fun p => fgtb p thresh) param = [] /\
     get_flexure_arrival (Qs [1; -1; 1; -1]%Z) = Raise IndexError) /\
  (exists e param tstmean last,
     let refnoisemean := Fin (10100 # 400) in
     let refmaxthresh := Fin (101000 # 400) in
     find_peaks_troughs noisy_start_signal = Ok e /\
     normalize (pks e) (prms e) = Ok param /\
     py_max (np_mean (slice param 1 2)) default_noisemin = refnoisemean /\
     segment_means param 2 refmaxthresh = Ok tstmean /\
     getitem_neg tstmean 1 = Ok last /\
     fleb (snd last) refmaxthresh = true /\
     np_where (fun r => fltb (snd r) refnoisemean) tstmean = [0; 1]%nat /\
     np_where (fun p => fgtb p refnoisemean) (np_delete_prefix param 3) = [] /\
     branch_A param (locs e) tstmean refnoisemean = Raise IndexError /\
     get_extension_arrival noisy_start_signal default_noisemult default_noisemin
     = Raise IndexError).
Proof.
  split.
  - do 3 eexists. split; [vm_compute; reflexivity|].
    split; [vm_compute; reflexivity|]. split; [vm_compute; reflexivity|].
    split; vm_compute; reflexivity.
  - do 4 eexists. cbv zeta. split; [vm_compute; reflexivity|].
    split; [vm_compute; reflexivity|]. split; [vm_compute; reflexivity|].
    split; [vm_compute; reflexivity|]. split; [vm_compute; reflexivity|].
    repeat split; vm_compute; reflexivity.
Qed.

(** ** The segment-mean loop *)

(** Successive recorded segments start [h + 1] elements apart, although each
    spans the [h] elements of the slice [param[strt:strt+h]]. *)
Lemma segment_loop_stride (param : list float64) (h : nat) (refmaxthresh : float64) :
  forall fuel acc cnt strt rows,
    segment_loop fuel param h refmaxthresh acc cnt strt (strt + h) = Ok rows ->
    exists n,
      map fst rows = map fst acc ++ map (fun i => (strt + i * (h + 1))%nat) (seq 0 (S n)).
Proof.
  induction fuel as [|fuel IH]; intros acc cnt strt rows Hrun; [discriminate|].
  cbn [segment_loop] in Hrun.
  assert (map fst (acc ++ [(strt, np_mean (slice param strt (strt + h)))])
          = map fst acc ++ map (fun i => (strt + i * (h + 1))%nat) (seq 0 1)) as Hone.
  { rewrite map_app. simpl. rewrite Nat.add_0_r. reflexivity. }
  match type of Hrun with
  | (if ?c then _ else _) = _ => destruct c
  end; [injection Hrun as <-; exists 0%nat; exact Hone|].
  destruct (getitem (acc ++ [(strt, np_mean (slice param strt (strt + h)))]) cnt)
    as [row| |] eqn:Hrow; cbn [bind] in Hrun; try discriminate.
  match type of Hrun with
  | (if ?c then _ else _) = _ => destruct c
  end.
  - injection Hrun as <-. exists 0%nat. exact Hone.
  - apply IH in Hrun. destruct Hrun as [n Hn]. exists (S n).
    rewrite Hn, map_app, <- app_assoc. f_equal.
    change (seq 0 (S (S n))) with (0%nat :: seq 1 (S n)).
    rewrite <- (seq_shift (S n) 0). cbn [map app fst]. rewrite map_map.
    f_equal; [lia|]. apply map_ext. intros i. lia.
Qed.

(** C7: the recorded segments do not partition [param].  On
    [quiet_start_signal] ([nnlocs = 2], segments of length 1) the loop
    records the slices starting at 0 and 2; the element at index 1, which
    lies before the stopping point, is in no segment. *)
Theorem segment_loop_skips_an_element :
  exists e param tstmean,
    find_peaks_troughs quiet_start_signal = Ok e /\
    normalize (pks e) (prms e) = Ok param /\
    length param = 4%nat /\
    segment_means param 2 (Fin (160 # 64)) = Ok tstmean /\
    map fst tstmean = [0; 2]%nat /\
    covered (2 / 2) tstmean 0 = true /\
    covered (2 / 2) tstmean 1 = false /\
    covered (2 / 2) tstmean 2 = true.
Proof.
  do 3 eexists. split; [vm_compute; reflexivity|].
  split; [vm_compute; reflexivity|]. split; [vm_compute; reflexivity|].
  split; [vm_compute; reflexivity|].
  repeat split; vm_compute; reflexivity.
Qed.

(** C8: Branch A does not default to the second segment when no segment
    mean is below the reference noise.  On [quiet_start_signal] both
    recorded means (1/2) are at least the reference noise (1/4), the last
    one does not exceed the reference maximum (5/2), and the call raises
    IndexError at [idx[0, -1]]. *)
Theorem no_quiet_segment_raises :
  exists e param tstmean last,
    let refnoisemean := Fin (16 # 64) in
    let refmaxthresh := Fin (160 # 64) in
    find_peaks_troughs quiet_start_signal = Ok e /\
    normalize (pks e) (prms e) = Ok param /\
    py_max (np_mean (slice param 1 2)) default_noisemin = refnoisemean /\
    segment_means param 2 refmaxthresh = Ok tstmean /\
    (2 <= length tstmean)%nat /\
    getitem_neg tstmean 1 = Ok last /\
    fleb (snd last) refmaxthresh = true /\
    np_where (fun r => fltb (snd r) refnoisemean) tstmean = [] /\
    branch_A param (locs e) tstmean refnoisemean = Raise IndexError /\
    get_extension_arrival quiet_start_signal default_noisemult default_noisemin
    = Raise IndexError.
Proof.
  do 4 eexists. cbv zeta. split; [vm_compute; reflexivity|].
  split; [vm_compute; reflexivity|]. split; [vm_compute; reflexivity|].
  split; [vm_compute; reflexivity|]. split; [simpl; lia|].
  split; [vm_compute; reflexivity|].
  repeat split; vm_compute; reflexivity.
Qed.

(** ** Degenerate inputs *)

Lemma where_from_length {A : Type} (p : A -> bool) (a : list A) :
  forall i, (length (where_from p i a) <= length a)%nat.
Proof.
  induction a as [|x t IH]; intros i; simpl; [lia|].
  destruct (p x); simpl; specialize (IH (S i)); lia.
Qed.

Lemma raw_param_length (pks prominence : list Q) :
  length (raw_param pks prominence) = Nat.min (length pks) (length prominence).
Proof. unfold raw_param, np_abs. rewrite length_map. apply np_mul_length. Qed.

(** Fewer than two extrema: [nrm[0]] or [nrm[1]] is out of bounds. *)
Lemma normalize_too_few (pks prominence : list Q) :
  (length (raw_param pks prominence) < 2)%nat ->
  normalize pks prominence = Raise IndexError.
Proof.
  intros Hlen. unfold normalize.
  assert (length (rev (np_sort (raw_param pks prominence)))
          = length (raw_param pks prominence)) as Hl.
  { rewrite length_rev. symmetry. apply Permutation_length, np_sort_perm. }
  destruct (rev (np_sort (raw_param pks prominence))) as [|n0 [|n1 rest]];
    try reflexivity.
  simpl in Hl. lia.
Qed.

(** No exception raised by the module is one of the kinds named in the
    specification. *)
Lemma raised_kinds_are_builtin (e : pyexn) : ~ In (class_name e) spec_error_kinds.
Proof.
  destruct e; simpl; intros H;
    repeat (destruct H as [H | H]; [discriminate H|]); exact H.
Qed.

(** C9, as stated, fails: no named error kind exists in the module.  A
    two-sample signal and a signal with one extremum make both detectors
    raise a bare IndexError, and an empty noise slice ([nnlocs = 0]) makes
    [get_extension_arrival] raise a bare ValueError. *)
Lemma degenerate_inputs_raise_builtin_errors :
  (length (Qs [0; 1]%Z) < 3)%nat /\
  get_flexure_arrival (Qs [0; 1]%Z) = Raise IndexError /\
  get_extension_arrival (Qs [0; 1]%Z) default_noisemult default_noisemin
  = Raise IndexError /\
  (exists e, find_peaks_troughs (Qs [0; 1; 0]%Z) = Ok e /\ length (locs e) = 1%nat) /\
  get_flexure_arrival (Qs [0; 1; 0]%Z) = Raise IndexError /\
  get_extension_arrival (Qs [0; 1; 0]%Z) default_noisemult default_noisemin
  = Raise IndexError /\
  get_extension_arrival (Qs [0; 1; 0; 1; 2; 1]%Z) default_noisemult default_noisemin
  = Raise ValueError /\
  ~ In (class_name IndexError) spec_error_kinds /\
  ~ In (class_name ValueError) spec_error_kinds.
Proof.
  split; [simpl; lia|].
  split; [vm_compute; reflexivity|]. split; [vm_compute; reflexivity|].
  split; [eexists; split; vm_compute; reflexivity|].
  split; [vm_compute; reflexivity|]. split; [vm_compute; reflexivity|].
  split; [vm_compute; reflexivity|].
  split; apply raised_kinds_are_builtin.
Qed.

(** C9, amended: for every signal shorter than 3 samples, and for every
    signal on which [find_peaks_troughs] yields fewer than 2 extrema, both
    detectors raise the builtin IndexError, which is none of the named
    kinds InsufficientDataError, DegenerateSignalError, NoArrivalFoundError. *)
Theorem too_few_extrema_raise_IndexError (sgnl : list Q)
    (noisemult noisemin : float64) :
  (length sgnl < 3)%nat \/
  (exists e, find_peaks_troughs sgnl = Ok e /\ (length (locs e) < 2)%nat) ->
  get_flexure_arrival sgnl = Raise IndexError /\
  get_extension_arrival sgnl noisemult noisemin = Raise IndexError /\
  ~ In (class_name IndexError) spec_error_kinds.
Proof.
  intros H.
  assert (find_peaks_troughs sgnl = Raise IndexError \/
          exists e, find_peaks_troughs sgnl = Ok e /\ (length (locs e) < 2)%nat)
    as [Hraise | [e [He Hlen]]].
  { destruct H as [Hshort | Hfew]; [|right; exact Hfew].
    destruct (Nat.lt_ge_cases (length sgnl) 2) as [Hlt | Hge].
    - left. apply find_peaks_troughs_short, Hlt.
    - right. destruct (@find_peaks_troughs_closed sgnl Hge) as [e [He [Hl _]]].
      exists e. split; [exact He|]. rewrite Hl, length_map.
      unfold sign_changes, np_where.
      eapply Nat.le_lt_trans; [apply where_from_length|].
      rewrite np_mul_length, np_diff_length.
      pose proof (np_diff_length sgnl). destruct (np_diff sgnl); simpl in *; lia. }
  - unfold get_flexure_arrival, get_extension_arrival. rewrite Hraise.
    repeat split; try reflexivity. apply raised_kinds_are_builtin.
  - assert (normalize (pks e) (prms e) = Raise IndexError) as Hn.
    { apply normalize_too_few. rewrite raw_param_length.
      destruct (Nat.lt_ge_cases (length sgnl) 2) as [Hlt | Hge].
      - rewrite (find_peaks_troughs_short sgnl Hlt) in He. discriminate.
      - destruct (@find_peaks_troughs_closed sgnl Hge) as [e' [He' [_ [H1 [_ H3]]]]].
        rewrite He in He'. injection He' as <-. lia. }
    unfold get_flexure_arrival, get_extension_arrival. rewrite He. cbn [bind].
    rewrite Hn. repeat split; try reflexivity. apply raised_kinds_are_builtin.
Qed.

Lemma too_few_extrema_raise_IndexError_witness :
  get_flexure_arrival (Qs [0; 1; 0]%Z) = Raise IndexError /\
  get_extension_arrival (Qs [0; 1; 0]%Z) default_noisemult default_noisemin
  = Raise IndexError /\
  ~ In (class_name IndexError) spec_error_kinds.
Proof.
  apply (@too_few_extrema_raise_IndexError (Qs [0; 1; 0]%Z)).
  right. eexists. split; [vm_compute; reflexivity | simpl; lia].
Defined.

(** ** The loops return *)

Lemma getitem_returns {A : Type} (a : list A) (i : nat) : getitem a i <> OutOfFuel.
Proof. unfold getitem. destruct (nth_error a i); discriminate. Qed.

Lemma getitem_neg_returns {A : Type} (a : list A) (k : nat) :
  getitem_neg a k <> OutOfFuel.
Proof.
  unfold getitem_neg. destruct (k <=? length a)%nat;
    [apply getitem_returns | discriminate].
Qed.

Lemma getitem_last {A : Type} (a : list A) (x : A) :
  getitem (a ++ [x]) (length a) = Ok x.
Proof.
  unfold getitem. rewrite nth_error_app2, Nat.sub_diag by lia. reflexivity.
Qed.

(** The segment loop never fails and the fuel of [segment_means] is enough:
    the start offset grows on every pass and stays within [param]. *)
Lemma segment_loop_returns (param : list float64) (h : nat) (refmaxthresh : float64) :
  forall fuel acc strt,
    (strt <= length param)%nat ->
    (length param < strt + fuel)%nat ->
    exists rows,
      segment_loop fuel param h refmaxthresh acc (length acc) strt (strt + h) = Ok rows.
Proof.
  induction fuel as [|fuel IH]; intros acc strt Hlo Hhi; [lia|].
  cbn [segment_loop].
  destruct (length param <? strt + h + 1 + h)%nat eqn:Hend.
  - eexists. reflexivity.
  - rewrite getitem_last. cbn [bind snd].
    destruct (fgtb (np_mean (slice param strt (strt + h))) refmaxthresh).
    + eexists. reflexivity.
    + apply Nat.ltb_ge in Hend.
      replace (length acc + 1)%nat
        with (length (acc ++ [(strt, np_mean (slice param strt (strt + h)))]))
        by (rewrite length_app; reflexivity).
      apply IH; lia.
Qed.

Lemma segment_means_returns (param : list float64) (nnlocs : nat)
    (refmaxthresh : float64) :
  exists rows, segment_means param nnlocs refmaxthresh = Ok rows.
Proof.
  unfold segment_means.
  apply (@segment_loop_returns param (nnlocs / 2)%nat refmaxthresh
           (S (length param)) [] 0%nat); lia.
Qed.

Lemma find_peaks_troughs_returns (vctr : list Q) : find_peaks_troughs vctr <> OutOfFuel.
Proof.
  destruct (Nat.lt_ge_cases (length vctr) 2) as [Hlt | Hge].
  - rewrite (find_peaks_troughs_short vctr Hlt). discriminate.
  - destruct (@find_peaks_troughs_closed vctr Hge) as [e [He _]].
    rewrite He. discriminate.
Qed.

Ltac step_bind :=
  match goal with
  | |- bind ?m _ <> OutOfFuel =>
      let H := fresh "H" in
      destruct m eqn:H; cbn [bind]; [| discriminate | ]
  end.

Lemma normalize_returns (pks prominence : list Q) :
  normalize pks prominence <> OutOfFuel.
Proof.
  unfold normalize.
  step_bind; [| exfalso; eapply getitem_returns; eassumption].
  step_bind; [| exfalso; eapply getitem_returns; eassumption].
  match goal with
  | |- (if ?c then _ else _) <> _ => destruct c; discriminate
  end.
Qed.

Lemma get_flexure_arrival_returns (sgnl : list Q) :
  get_flexure_arrival sgnl <> OutOfFuel.
Proof.
  unfold get_flexure_arrival.
  step_bind; [| exfalso; eapply find_peaks_troughs_returns; eassumption].
  step_bind; [| exfalso; eapply normalize_returns; eassumption].
  match goal with
  | |- bind (find_signal_threshold ?p) _ <> _ =>
      destruct (find_signal_threshold_returns p) as [t Ht]; rewrite Ht
  end.
  cbn [bind].
  step_bind; [| exfalso; eapply getitem_returns; eassumption].
  match goal with
  | |- (if ?c then _ else _) <> _ =>
      destruct c; [discriminate | apply getitem_returns]
  end.
Qed.

Lemma pick_next_location_returns (locs : list Z) (idx : nat) :
  pick_next_location locs idx <> OutOfFuel.
Proof.
  unfold pick_next_location.
  step_bind; [| exfalso; eapply getitem_returns; eassumption].
  destruct (a =? 0)%Z; [|discriminate].
  destruct (getitem_neg locs 2); try discriminate; apply getitem_neg_returns.
Qed.

Lemma branch_A_returns (param : list float64) (locs : list Z)
    (tstmean : list (nat * float64)) (refnoisemean : float64) :
  branch_A param locs tstmean refnoisemean <> OutOfFuel.
Proof.
  unfold branch_A.
  step_bind; [| exfalso; eapply getitem_neg_returns; eassumption].
  step_bind; [| exfalso; eapply getitem_returns; eassumption].
  step_bind; [| exfalso; eapply getitem_returns; eassumption].
  match goal with
  | |- (if ?c then _ else _) <> _ =>
      destruct c; [discriminate | apply getitem_returns]
  end.
Qed.

Lemma branch_B_returns (param : list float64) (locs : list Z)
    (tstmean : list (nat * float64)) (refnoisemean refmaxthresh : float64) :
  branch_B param locs tstmean refnoisemean refmaxthresh <> OutOfFuel.
Proof.
  unfold branch_B.
  step_bind; [| exfalso; eapply getitem_neg_returns; eassumption].
  step_bind; [| exfalso; eapply getitem_returns; eassumption].
  step_bind; [| exfalso; eapply getitem_returns; eassumption].
  step_bind; [| exfalso; eapply getitem_neg_returns; eassumption].
  apply pick_next_location_returns.
Qed.

Lemma get_extension_arrival_returns (sgnl : list Q) (noisemult noisemin : float64) :
  get_extension_arrival sgnl noisemult noisemin <> OutOfFuel.
Proof.
  unfold get_extension_arrival.
  step_bind; [| exfalso; eapply find_peaks_troughs_returns; eassumption].
  step_bind; [| exfalso; eapply normalize_returns; eassumption].
  step_bind; [| exfalso; eapply getitem_returns; eassumption].
  step_bind; [| exfalso; eapply getitem_returns; eassumption].
  step_bind; [| exfalso; eapply getitem_neg_returns; eassumption].
  step_bind;
    [| match goal with
       | H : py_max_list ?l = OutOfFuel |- _ => destruct l; discriminate H
       end].
  match goal with
  | |- bind (segment_means ?p ?n ?r) _ <> _ =>
      destruct (segment_means_returns p n r) as [rows Hrows]; rewrite Hrows
  end.
  cbn [bind].
  step_bind; [| exfalso; eapply getitem_neg_returns; eassumption].
  match goal with
  | |- (if ?c then _ else _) <> _ =>
      destruct c; [apply branch_A_returns | apply branch_B_returns]
  end.
Qed.

(** * Further properties of the module *)

(** ** The arrays of [find_peaks_troughs] *)

Lemma where_from_In {A : Type} (p : A -> bool) (a : list A) :
  forall i j,
    In j (where_from p i a) <->
    (i <= j)%nat /\ exists x, nth_error a (j - i) = Some x /\ p x = true.
Proof.
  induction a as [|x t IH]; intros i j; simpl.
  - split; [contradiction|]. intros [_ [y [Hy _]]].
    destruct (j - i)%nat; discriminate.
  - assert (In j (where_from p (S i) t) <->
            (i < j)%nat /\ exists y, nth_error (x :: t) (j - i) = Some y /\ p y = true)
      as Htail.
    { rewrite IH. split; intros [Hlt [y [Hy Hp]]]; (split; [lia|]); exists y;
        (split; [|exact Hp]).
      - replace (j - i)%nat with (S (j - S i)) by lia. exact Hy.
      - replace (j - i)%nat with (S (j - S i)) in Hy by lia. exact Hy. }
    destruct (p x) eqn:Hx.
    + simpl. rewrite Htail. split.
      * intros [<- | [Hlt H]]; [|split; [lia | exact H]].
        split; [lia|]. exists x. rewrite Nat.sub_diag. split; [reflexivity | exact Hx].
      * intros [Hle H]. destruct (Nat.eq_dec i j) as [-> | Hne]; [left; reflexivity|].
        right. split; [lia | exact H].
    + rewrite Htail. split.
      * intros [Hlt H]. split; [lia | exact H].
      * intros [Hle [y [Hy Hp]]]. split; [|exists y; split; assumption].
        destruct (Nat.eq_dec i j) as [-> | Hne]; [|lia].
        rewrite Nat.sub_diag in Hy. injection Hy as ->. congruence.
Qed.



Lemma nth_error_tl {A : Type} (l : list A) (k : nat) :
  nth_error (tl l) k = nth_error l (S k).
Proof. destruct l; [destruct k|]; reflexivity. Qed.






Lemma setitem_same {A : Type} (a : list A) :
  forall i x, (i < length a)%nat -> nth_error (setitem a i x) i = Some x.
Proof.
  induction a as [|y t IH]; intros [|i] x Hi; simpl in *; try lia.
  - reflexivity.
  - apply IH. lia.
Qed.

Lemma setitem_other {A : Type} (a : list A) :
  forall i j x, i <> j -> nth_error (setitem a i x) j = nth_error a j.
Proof.
  induction a as [|y t IH]; intros [|i] [|j] x Hij; simpl; try reflexivity.
  - congruence.
  - apply IH. congruence.
Qed.

Section FoldSetitem.
Context {A : Type} (f : nat -> A).

Lemma fill_length (js : list nat) :
  forall a, length (fill f js a) = length a.
Proof.
  induction js as [|i js IH]; intros a; simpl; [reflexivity|].
  unfold fill in *. simpl. rewrite IH. apply setitem_length.
Qed.

Lemma fill_other (js : list nat) (j : nat) :
  ~ In j js -> forall a, nth_error (fill f js a) j = nth_error a j.
Proof.
  induction js as [|i js IH]; intros Hj a; [reflexivity|].
  unfold fill in *. simpl. rewrite IH.
  - apply setitem_other. intros ->. apply Hj. left. reflexivity.
  - intros H. apply Hj. right. exact H.
Qed.

Lemma fill_same (js : list nat) (j : nat) :
  In j js -> forall a, (j < length a)%nat -> nth_error (fill f js a) j = Some (f j).
Proof.
  induction js as [|i js IH]; intros Hj a Hlen; [contradiction|].
  change (fill f (i :: js) a) with (fill f js (setitem a i (f i))).
  destruct (in_dec Nat.eq_dec j js) as [Hin | Hnot].
  - apply IH; [exact Hin | rewrite setitem_length; exact Hlen].
  - rewrite fill_other by exact Hnot. destruct Hj as [-> | Hj]; [|contradiction].
    apply setitem_same, Hlen.
Qed.

(** Filling the slots [1..n] of a zeroed array of length [n+1] and dropping
    slot 0 leaves the values [f 1 .. f n]. *)
Lemma fill_tail (z : A) (n : nat) :
  tl (fill f (seq 1 n) (repeat z (S n))) = map (fun j => f (S j)) (seq 0 n).
Proof.
  apply nth_error_ext. intros j. rewrite nth_error_tl.
  destruct (Nat.lt_ge_cases j n) as [Hlt | Hge].
  - rewrite fill_same;
      [| apply in_seq; lia | rewrite repeat_length; lia].
    symmetry. rewrite nth_error_map, nth_error_seq.
    destruct (Nat.ltb_spec j n); [reflexivity | lia].
  - transitivity (@None A).
    + apply nth_error_None. rewrite fill_length, repeat_length. lia.
    + symmetry. apply nth_error_None. rewrite length_map, length_seq. exact Hge.
Qed.
End FoldSetitem.

Lemma width_prominence_fold (locs1 : list Z) (pks1 : list Q) (js : list nat) :
  forall wds prms,
    fold_left (width_prominence_step locs1 pks1) js (wds, prms)
    = (fill (fun jj => (nth (jj + 1) locs1 0 - nth (jj - 1) locs1 0)%Z) js wds,
       fill (fun jj => py_min (Qabs (nth jj pks1 0 - nth (jj - 1) pks1 0))
                              (Qabs (nth (jj + 1) pks1 0 - nth jj pks1 0))) js prms).
Proof.
  induction js as [|j js IH]; intros w p; [reflexivity|].
  simpl fold_left. rewrite IH. reflexivity.
Qed.

Lemma np_take_spec {A : Type} (a : list A) (idx : list nat) (r : list A) :
  np_take a idx = Ok r -> Forall2 (fun i x => nth_error a i = Some x) idx r.
Proof.
  revert r. induction idx as [|i idx IH]; intros r H; simpl in H.
  - injection H as <-. constructor.
  - unfold getitem in H. destruct (nth_error a i) as [x|] eqn:Hx; [|discriminate].
    cbn [bind] in H. destruct (np_take a idx) as [r'| |]; try discriminate.
    cbn [bind] in H. injection H as <-. constructor; [exact Hx | apply IH; reflexivity].
Qed.

Lemma np_delete_last_snoc {A : Type} (a : list A) (x : A) :
  np_delete_last (a ++ [x]) = Ok a.
Proof.
  unfold np_delete_last. destruct (a ++ [x]) eqn:E; [destruct a; discriminate|].
  rewrite <- E, removelast_last. reflexivity.
Qed.

(** The four arrays in full: the values are read at the locations, and the
    widths and prominences are the loop's values for [jj = 1..M]. *)
Lemma find_peaks_troughs_arrays (vctr : list Q) (e : extrema) :
  find_peaks_troughs vctr = Ok e ->
  exists v0 vlast,
    nth_error vctr 0 = Some v0 /\
    nth_error vctr (length vctr - 1) = Some vlast /\
    locs e = map (fun i => Z.of_nat (S i)) (sign_changes vctr) /\
    np_take vctr (map S (sign_changes vctr)) = Ok (pks e) /\
    (let locs1 := 1%Z :: locs e ++ [Z.of_nat (length vctr)] in
     wds e = map (fun j => (nth (S j + 1) locs1 0 - nth (S j - 1) locs1 0)%Z)
                 (seq 0 (length (locs e)))) /\
    (let pks1 := v0 :: pks e ++ [vlast] in
     prms e = map (fun j => py_min (Qabs (nth (S j) pks1 0 - nth (S j - 1) pks1 0))
                                   (Qabs (nth (S j + 1) pks1 0 - nth (S j) pks1 0)))
                  (seq 0 (length (locs e)))).
Proof.
  intros He.
  destruct (Nat.lt_ge_cases (length vctr) 2) as [Hlt | HN].
  { rewrite (find_peaks_troughs_short vctr Hlt) in He. discriminate. }
  revert He. unfold find_peaks_troughs, sign_changes.
  pose proof (np_diff_length vctr) as Hd.
  destruct (np_diff vctr) as [|x t] eqn:Hdiff; [simpl in Hd; lia|].
  simpl in Hd.
  change (np_mul ((x :: t) ++ [0]) (0 :: x :: t))
    with ((x * 0) :: np_mul (t ++ [0]) (x :: t)).
  cbn [np_delete_first bind tl]. rewrite mlt_interior. cbn [bind].
  set (idx := np_where (fun m => Qle_bool m 0) (np_mul t (x :: t))).
  assert (Hidx : Forall (fun i => (i < length vctr)%nat) (map S idx)).
  { apply Forall_forall. intros j Hj. apply in_map_iff in Hj.
    destruct Hj as [i [<- Hi]]. apply where_from_bounds in Hi.
    rewrite np_mul_length in Hi. simpl in Hi. lia. }
  destruct (np_take_ok vctr Hidx) as [pk [Hpk Hlen]].
  rewrite Hpk. cbn [bind].
  unfold getitem_neg, getitem.
  destruct (nth_error vctr 0) as [v0|] eqn:Hv0;
    [|apply nth_error_None in Hv0; lia].
  cbn [bind].
  replace (1 <=? length vctr)%nat with true by (symmetry; apply Nat.leb_le; lia).
  destruct (nth_error vctr (length vctr - 1)) as [vl|] eqn:Hvl;
    [|apply nth_error_None in Hvl; lia].
  cbn [bind]. rewrite width_prominence_fold.
  assert (length (v0 :: pk ++ [vl]) - 1 = S (length idx))%nat as Hp1.
  { simpl. rewrite length_app, Hlen, length_map. simpl. lia. }
  assert (length (1%Z :: map Z.of_nat (map S idx) ++ [Z.of_nat (length vctr)]) - 2
          = length idx)%nat as Hl1.
  { simpl. rewrite length_app, !length_map. simpl. lia. }
  rewrite Hp1, Hl1.
  set (fw := fill _ _ (repeat 0%Z _)). set (fp := fill _ _ (repeat 0%Q _)).
  assert (np_delete_first fw = Ok (tl fw)) as Hfw.
  { assert (length fw = S (length idx)) as H
        by (unfold fw; rewrite fill_length, repeat_length; reflexivity).
    destruct fw; [discriminate H | reflexivity]. }
  assert (np_delete_first fp = Ok (tl fp)) as Hfp.
  { assert (length fp = S (length idx)) as H
        by (unfold fp; rewrite fill_length, repeat_length; reflexivity).
    destruct fp; [discriminate H | reflexivity]. }
  rewrite Hfw. cbn [bind]. rewrite Hfp. cbn [bind np_delete_first].
  rewrite !np_delete_last_snoc. cbn [bind].
  intros He. injection He as <-. cbn [locs pks wds prms].
  exists v0, vl. split; [reflexivity|]. split; [reflexivity|].
  rewrite map_map. split; [reflexivity|]. split; [reflexivity|].
  rewrite length_map. unfold fw, fp. rewrite !fill_tail.
  rewrite <- (map_map S Z.of_nat idx). split; reflexivity.
Qed.

Lemma find_peaks_troughs_sorted (vctr : list Q) (e : extrema) :
  find_peaks_troughs vctr = Ok e -> StronglySorted Z.lt (locs e).
Proof.
  intros He. destruct (find_peaks_troughs_arrays vctr He) as [_ [_ [_ [_ [Hl _]]]]].
  rewrite Hl. unfold sign_changes, np_where.
  generalize (@where_from_increasing _ (fun m => Qle_bool m 0)
                (np_mul (tl (np_diff vctr)) (np_diff vctr)) 0).
  generalize (where_from (fun m => Qle_bool m 0) 0
                (np_mul (tl (np_diff vctr)) (np_diff vctr))).
  induction 1 as [|i l _ IH Hi]; simpl; constructor.
  - exact IH.
  - rewrite Forall_map. revert Hi. apply Forall_impl. intros; lia.
Qed.

Lemma sorted_nth_lt (s : list Z) :
  StronglySorted Z.lt s ->
  forall i j, (i < j < length s)%nat -> (nth i s 0 < nth j s 0)%Z.
Proof.
  induction 1 as [|x s Hs IH Hx]; intros i j Hij; simpl in Hij; [lia|].
  destruct j as [|j]; [lia|]. destruct i as [|i]; simpl.
  - rewrite Forall_forall in Hx. apply Hx, nth_In. lia.
  - apply IH. lia.
Qed.

Lemma sorted_snoc (s : list Z) (x : Z) :
  StronglySorted Z.lt s -> Forall (fun y => (y < x)%Z) s ->
  StronglySorted Z.lt (s ++ [x]).
Proof.
  induction 1 as [|y s Hs IH Hy]; intros Hlt; simpl.
  - repeat constructor.
  - inversion Hlt as [|? ? Hyx Hrest]; subst. constructor; [apply IH, Hrest|].
    apply Forall_app. split; [exact Hy | repeat constructor; exact Hyx].
Qed.

(** X2: the returned values are the samples at the returned locations. *)
Theorem values_are_samples_at_locations (vctr : list Q) (e : extrema) :
  find_peaks_troughs vctr = Ok e ->
  Forall2 (fun l p => (0 <= l)%Z /\ nth_error vctr (Z.to_nat l) = Some p)
          (locs e) (pks e).
Proof.
  intros He. destruct (find_peaks_troughs_arrays vctr He) as [_ [_ [_ [_ [Hl [Hp _]]]]]].
  rewrite Hl. apply np_take_spec in Hp. revert Hp.
  generalize (pks e). generalize (sign_changes vctr).
  induction l as [|i l IH]; intros r H; inversion H; subst; cbn [map]; constructor.
  - split; [lia|]. rewrite Nat2Z.id. assumption.
  - apply IH. assumption.
Qed.

Lemma values_are_samples_at_locations_witness :
  Forall2 (fun l p => (0 <= l)%Z /\
                      nth_error (Qs [0; 1; 0; -1; 0; 1; 0; -1; 0]%Z) (Z.to_nat l)
                      = Some p)
          [1; 3; 5; 7]%Z (Qs [1; -1; 1; -1]%Z).
Proof.
  apply (@values_are_samples_at_locations
           (Qs [0; 1; 0; -1; 0; 1; 0; -1; 0]%Z)
           (mkExtrema (Qs [1; -1; 1; -1]%Z) [1; 3; 5; 7]%Z [2; 4; 4; 4]%Z
                      (Qs [1; 2; 2; 1]%Z))).
  vm_compute. reflexivity.
Defined.

(** X3: each width is the distance between the two neighbours of the
    extremum in the list [1, locs..., N]: the left neighbour of the first
    extremum is the placeholder 1 (not index 0) and the right neighbour of
    the last one is the signal length N.  Every width is at least 1. *)
Theorem widths_span_neighbours (vctr : list Q) (e : extrema) :
  find_peaks_troughs vctr = Ok e ->
  let padded := 1%Z :: locs e ++ [Z.of_nat (length vctr)] in
  wds e = map (fun j => (nth (j + 2) padded 0 - nth j padded 0)%Z)
              (seq 0 (length (locs e))) /\
  Forall (fun w => (1 <= w)%Z) (wds e).
Proof.
  intros He padded.
  destruct (find_peaks_troughs_arrays vctr He) as [_ [_ [_ [_ [_ [_ [Hw _]]]]]]].
  assert (wds e = map (fun j => (nth (j + 2) padded 0 - nth j padded 0)%Z)
                      (seq 0 (length (locs e)))) as Hform.
  { rewrite Hw. apply map_ext. intros j. fold padded.
    replace (S j + 1)%nat with (j + 2)%nat by lia.
    replace (S j - 1)%nat with j by lia. reflexivity. }
  split; [exact Hform|]. rewrite Hform, Forall_map. apply Forall_forall.
  intros j Hj. apply in_seq in Hj.
  pose proof (find_peaks_troughs_locations vctr He) as Hb.
  assert (StronglySorted Z.lt (locs e ++ [Z.of_nat (length vctr)])) as Hs.
  { apply sorted_snoc; [apply (find_peaks_troughs_sorted vctr He)|].
    revert Hb. apply Forall_impl. intros; lia. }
  assert (forall i, (i < length (locs e ++ [Z.of_nat (length vctr)]))%nat ->
                    (1 <= nth i (locs e ++ [Z.of_nat (length vctr)]) 0)%Z) as Hpos.
  { intros i Hi. rewrite length_app in Hi. simpl in Hi.
    destruct (Nat.lt_ge_cases i (length (locs e))) as [Hlt | Hge].
    - rewrite app_nth1 by exact Hlt. rewrite Forall_forall in Hb.
      specialize (Hb _ (nth_In (locs e) 0%Z Hlt)). lia.
    - rewrite app_nth2 by exact Hge. replace (i - length (locs e))%nat with 0%nat by lia.
      simpl. rewrite Forall_forall in Hb.
      destruct (locs e) as [|l0 ls]; [simpl in Hj; lia|].
      specialize (Hb l0 (or_introl eq_refl)). lia. }
  assert (length (locs e ++ [Z.of_nat (length vctr)]) = S (length (locs e))) as Hlen
    by (rewrite length_app; simpl; lia).
  unfold padded. replace (j + 2)%nat with (S (S j)) by lia.
  change (nth (S (S j)) (1%Z :: locs e ++ [Z.of_nat (length vctr)]) 0%Z)
    with (nth (S j) (locs e ++ [Z.of_nat (length vctr)]) 0%Z).
  pose proof (@sorted_nth_lt _ Hs j (S j)) as Hstep.
  destruct j as [|j].
  - simpl nth at 2. specialize (Hstep ltac:(lia)). specialize (Hpos 0%nat ltac:(lia)). lia.
  - change (nth (S j) (1%Z :: locs e ++ [Z.of_nat (length vctr)]) 0%Z)
      with (nth j (locs e ++ [Z.of_nat (length vctr)]) 0%Z).
    pose proof (@sorted_nth_lt _ Hs j (S (S j)) ltac:(lia)). lia.
Qed.

Lemma widths_span_neighbours_witness :
  let e := mkExtrema (Qs [8; 4; 8; -8]%Z) [1; 2; 3; 12]%Z [1; 2; 10; 11]%Z
                     (Qs [4; 4; 4; 8]%Z) in
  let padded := 1%Z :: locs e ++ [Z.of_nat (length quiet_start_signal)] in
  wds e = map (fun j => (nth (j + 2) padded 0 - nth j padded 0)%Z)
              (seq 0 (length (locs e))) /\
  Forall (fun w => (1 <= w)%Z) (wds e).
Proof.
  apply (@widths_span_neighbours quiet_start_signal
           (mkExtrema (Qs [8; 4; 8; -8]%Z) [1; 2; 3; 12]%Z [1; 2; 10; 11]%Z
                      (Qs [4; 4; 4; 8]%Z))).
  vm_compute. reflexivity.
Defined.

Lemma nth_map_seq {A : Type} (g : nat -> A) (n j : nat) (d : A) :
  (j < n)%nat -> nth j (map g (seq 0 n)) d = g j.
Proof.
  intros Hj. apply nth_error_nth. rewrite nth_error_map, nth_error_seq.
  destruct (Nat.ltb_spec j n); [reflexivity | lia].
Qed.

Lemma py_min_spec (a b : Q) :
  (py_min a b = a \/ py_min a b = b) /\ py_min a b <= a /\ py_min a b <= b.
Proof.
  unfold py_min, Qltb. destruct (Qle_bool a b) eqn:H; simpl.
  - apply Qle_bool_iff in H. repeat split; [left; reflexivity | apply Qle_refl | exact H].
  - assert (b < a) as Hlt.
    { apply Qnot_le_lt. intros Hle. apply Qle_bool_iff in Hle. congruence. }
    repeat split; [right; reflexivity | apply Qlt_le_weak, Hlt | apply Qle_refl].
Qed.

(** X4: each prominence is the smaller of the two absolute differences
    between the extremum's value and the values of its neighbours in the
    list [vctr[0], pks..., vctr[-1]]; it is never negative. *)
Theorem prominence_is_smaller_contrast (vctr : list Q) (e : extrema) :
  find_peaks_troughs vctr = Ok e ->
  exists v0 vlast,
    nth_error vctr 0 = Some v0 /\
    nth_error vctr (length vctr - 1) = Some vlast /\
    forall j, (j < length (prms e))%nat ->
      let bracketed := v0 :: pks e ++ [vlast] in
      let lfp := Qabs (nth (j + 1) bracketed 0 - nth j bracketed 0) in
      let rtp := Qabs (nth (j + 2) bracketed 0 - nth (j + 1) bracketed 0) in
      (nth j (prms e) 0 = lfp \/ nth j (prms e) 0 = rtp) /\
      nth j (prms e) 0 <= lfp /\
      nth j (prms e) 0 <= rtp /\
      0 <= nth j (prms e) 0.
Proof.
  intros He.
  destruct (find_peaks_troughs_arrays vctr He)
    as [v0 [vl [Hv0 [Hvl [_ [_ [_ Hp]]]]]]].
  exists v0, vl. split; [exact Hv0|]. split; [exact Hvl|].
  intros j Hj bracketed lfp rtp. cbv zeta in Hp. fold bracketed in Hp.
  assert (nth j (prms e) 0 = py_min lfp rtp) as Hnth.
  { rewrite Hp in Hj |- *. rewrite length_map, length_seq in Hj.
    rewrite nth_map_seq by exact Hj. unfold lfp, rtp.
    replace (S j - 1)%nat with j by lia.
    replace (j + 1)%nat with (S j) by lia.
    replace (S j + 1)%nat with (j + 2)%nat by lia. reflexivity. }
  rewrite Hnth. destruct (py_min_spec lfp rtp) as [Hor [Hl Hr]].
  repeat split; try assumption.
  destruct Hor as [-> | ->]; apply Qabs_nonneg.
Qed.

Lemma prominence_is_smaller_contrast_witness :
  let vctr := Qs [0; 1; 0; -1; 0; 1; 0; -1; 0]%Z in
  let e := mkExtrema (Qs [1; -1; 1; -1]%Z) [1; 3; 5; 7]%Z [2; 4; 4; 4]%Z
                     (Qs [1; 2; 2; 1]%Z) in
  exists v0 vlast,
    nth_error vctr 0 = Some v0 /\
    nth_error vctr (length vctr - 1) = Some vlast /\
    forall j, (j < length (prms e))%nat ->
      let bracketed := v0 :: pks e ++ [vlast] in
      let lfp := Qabs (nth (j + 1) bracketed 0 - nth j bracketed 0) in
      let rtp := Qabs (nth (j + 2) bracketed 0 - nth (j + 1) bracketed 0) in
      (nth j (prms e) 0 = lfp \/ nth j (prms e) 0 = rtp) /\
      nth j (prms e) 0 <= lfp /\
      nth j (prms e) 0 <= rtp /\
      0 <= nth j (prms e) 0.
Proof.
  apply (@prominence_is_smaller_contrast (Qs [0; 1; 0; -1; 0; 1; 0; -1; 0]%Z)
           (mkExtrema (Qs [1; -1; 1; -1]%Z) [1; 3; 5; 7]%Z [2; 4; 4; 4]%Z
                      (Qs [1; 2; 2; 1]%Z))).
  vm_compute. reflexivity.
Defined.

(** ** Polarity *)

Lemma where_from_ext {A B : Type} (p : A -> bool) (q : B -> bool)
    (a : list A) (b : list B) :
  Forall2 (fun x y => p x = q y) a b ->
  forall i, where_from p i a = where_from q i b.
Proof.
  induction 1 as [|x y a b Hxy _ IH]; intros i; simpl; [reflexivity|].
  rewrite Hxy, (IH (S i)). reflexivity.
Qed.

Lemma np_mul_Forall2 (R S : Q -> Q -> Prop) (a1 a2 b1 b2 : list Q) :
  (forall x x' y y', R x x' -> R y y' -> S (x * y) (x' * y')) ->
  Forall2 R a1 a2 -> Forall2 R b1 b2 ->
  Forall2 S (np_mul a1 b1) (np_mul a2 b2).
Proof.
  intros HRS Ha. revert b1 b2.
  induction Ha as [|x x' a1 a2 Hx _ IH]; intros b1 b2 Hb.
  - constructor.
  - destruct Hb as [|y y' b1 b2 Hy Hb]; [constructor|].
    change (np_mul (x :: a1) (y :: b1)) with ((x * y) :: np_mul a1 b1).
    change (np_mul (x' :: a2) (y' :: b2)) with ((x' * y') :: np_mul a2 b2).
    constructor; [apply HRS; assumption | apply IH, Hb].
Qed.

Lemma Forall2_tl {A B : Type} (R : A -> B -> Prop) (a : list A) (b : list B) :
  Forall2 R a b -> Forall2 R (tl a) (tl b).
Proof. destruct 1; [constructor | assumption]. Qed.

(** The slopes of the inverted signal are the negated slopes. *)
Lemma np_diff_opp (v : list Q) :
  Forall2 (fun d' d => d' == - d) (np_diff (map Qopp v)) (np_diff v).
Proof.
  induction v as [|x [|y t] IH].
  - constructor.
  - constructor.
  - change (map Qopp (x :: y :: t)) with ((- x) :: (- y) :: map Qopp t).
    change (map Qopp (y :: t)) with ((- y) :: map Qopp t) in IH.
    rewrite !np_diff_cons. constructor; [ring | exact IH].
Qed.

(** The product of two negated slopes is the product of the slopes, so the
    test [mlt <= 0] selects the same positions. *)
Lemma sign_changes_opp (v : list Q) :
  sign_changes (map Qopp v) = sign_changes v.
Proof.
  unfold sign_changes, np_where. apply where_from_ext.
  apply np_mul_Forall2 with (R := fun d' d => d' == - d).
  - intros x x' y y' Hx Hy.
    assert (x * y == x' * y') as Hm by (rewrite Hx, Hy; ring).
    rewrite Hm. reflexivity.
  - apply Forall2_tl, np_diff_opp.
  - apply np_diff_opp.
Qed.

Lemma np_take_map {A B : Type} (f : A -> B) (a : list A) (idx : list nat) :
  forall r, np_take a idx = Ok r -> np_take (map f a) idx = Ok (map f r).
Proof.
  induction idx as [|i idx IH]; intros r H; simpl in *.
  - injection H as <-. reflexivity.
  - unfold getitem in *. rewrite nth_error_map.
    destruct (nth_error a i) as [x|]; [|discriminate H]. cbn [option_map bind] in *.
    destruct (np_take a idx) as [r'| |]; try discriminate H.
    rewrite (IH r' eq_refl). cbn [bind] in *. injection H as <-. reflexivity.
Qed.

Lemma nth_opp (j : nat) (l : list Q) : nth j (map Qopp l) 0 = - nth j l 0.
Proof. exact (map_nth Qopp l 0 j). Qed.

(** The height difference of two negated values is the same number, not
    only an equal fraction. *)
Lemma Qabs_opp_minus (a b : Q) : Qabs (- a - - b) = Qabs (a - b).
Proof.
  destruct a as [an ad], b as [bn bd].
  unfold Qabs, Qminus, Qplus, Qopp. cbn [Qnum Qden].
  f_equal. rewrite <- Z.abs_opp. f_equal. ring.
Qed.

(** X5: inverting the polarity of the signal negates the extremum values
    and leaves the locations, the widths and the prominences unchanged. *)
Theorem extrema_under_polarity_inversion (vctr : list Q) (e : extrema) :
  find_peaks_troughs vctr = Ok e ->
  find_peaks_troughs (map Qopp vctr)
  = Ok (mkExtrema (map Qopp (pks e)) (locs e) (wds e) (prms e)).
Proof.
  intros He.
  destruct (Nat.lt_ge_cases (length vctr) 2) as [Hlt | Hge].
  { rewrite (find_peaks_troughs_short vctr Hlt) in He. discriminate. }
  destruct (@find_peaks_troughs_closed (map Qopp vctr))
    as [e' [He' _]]; [rewrite length_map; exact Hge|].
  rewrite He'. f_equal.
  destruct (find_peaks_troughs_arrays vctr He)
    as [v0 [vl [Hv0 [Hvl [Hl [Hp [Hw Hr]]]]]]].
  destruct (find_peaks_troughs_arrays _ He')
    as [v0' [vl' [Hv0' [Hvl' [Hl' [Hp' [Hw' Hr']]]]]]].
  cbv zeta in Hw, Hr, Hw', Hr'.
  rewrite sign_changes_opp in Hl', Hp'.
  assert (locs e' = locs e) as Hlocs by (rewrite Hl', Hl; reflexivity).
  assert (pks e' = map Qopp (pks e)) as Hpks.
  { rewrite (np_take_map Qopp _ _ Hp) in Hp'. injection Hp' as <-. reflexivity. }
  assert (wds e' = wds e) as Hwds.
  { rewrite Hw', Hw, Hlocs, length_map. reflexivity. }
  assert (prms e' = prms e) as Hprms.
  { rewrite Hr', Hr, Hlocs, Hpks.
    rewrite nth_error_map, Hv0 in Hv0'. injection Hv0' as <-.
    rewrite length_map, nth_error_map, Hvl in Hvl'. injection Hvl' as <-.
    change ((- v0) :: map Qopp (pks e) ++ [- vl])
      with (map Qopp [v0] ++ map Qopp (pks e) ++ map Qopp [vl]).
    rewrite <- !map_app. apply map_ext. intros j.
    rewrite !nth_opp, !Qabs_opp_minus. reflexivity. }
  destruct e' as [p l w r]. cbn [pks locs wds prms] in *.
  rewrite Hlocs, Hpks, Hwds, Hprms. reflexivity.
Qed.

Lemma extrema_under_polarity_inversion_witness :
  find_peaks_troughs (map Qopp (Qs [0; 1; 0; -1; 0; 1; 0; -1; 0]%Z))
  = Ok (mkExtrema (map Qopp (Qs [1; -1; 1; -1]%Z)) [1; 3; 5; 7]%Z [2; 4; 4; 4]%Z
                  (Qs [1; 2; 2; 1]%Z)).
Proof.
  apply (@extrema_under_polarity_inversion
           (Qs [0; 1; 0; -1; 0; 1; 0; -1; 0]%Z)
           (mkExtrema (Qs [1; -1; 1; -1]%Z) [1; 3; 5; 7]%Z [2; 4; 4; 4]%Z
                      (Qs [1; 2; 2; 1]%Z))).
  vm_compute. reflexivity.
Defined.

(** ** Short signals *)

(** X6: [find_peaks_troughs] raises exactly on signals of fewer than two
    samples, and then IndexError (from [np.delete(mlt, -1)]); on two samples
    it returns four empty arrays; on N >= 2 samples it reports at most N-2
    extrema. *)
Theorem find_peaks_troughs_short_signals (vctr : list Q) :
  ((length vctr < 2)%nat <-> find_peaks_troughs vctr = Raise IndexError) /\
  (forall ex, find_peaks_troughs vctr = Raise ex -> ex = IndexError) /\
  (length vctr = 2%nat -> find_peaks_troughs vctr = Ok (mkExtrema [] [] [] [])) /\
  (forall e, find_peaks_troughs vctr = Ok e ->
             (2 <= length vctr)%nat /\ (length (locs e) <= length vctr - 2)%nat).
Proof.
  destruct (Nat.lt_ge_cases (length vctr) 2) as [Hlt | Hge].
  - pose proof (find_peaks_troughs_short vctr Hlt) as Hr. rewrite Hr.
    repeat split; try congruence; try lia; try discriminate.
  - destruct (@find_peaks_troughs_closed vctr Hge) as [e [He [Hl [H1 [H2 H3]]]]].
    assert (length (locs e) <= length vctr - 2)%nat as Hcount.
    { rewrite Hl, length_map. unfold sign_changes, np_where.
      eapply Nat.le_trans; [apply where_from_length|].
      rewrite np_mul_length, np_diff_length.
      pose proof (np_diff_length vctr). destruct (np_diff vctr); simpl in *; lia. }
    rewrite He. repeat split; try discriminate; try lia.
    + intros HN. f_equal. destruct e as [p l w r]. cbn [pks locs wds prms] in *.
      rewrite HN in Hcount. destruct l; [|simpl in Hcount; lia].
      destruct p; [|discriminate H1]. destruct w; [|discriminate H2].
      destruct r; [|discriminate H3]. reflexivity.
    + injection H as <-. exact Hcount.
Qed.

(** ** Constant signals *)

Lemma np_take_values {A : Type} (a : list A) (idx : list nat) (r : list A) :
  np_take a idx = Ok r -> Forall (fun x => In x a) r.
Proof.
  intros H. apply np_take_spec in H.
  induction H as [|i x idx r Hx _ IH]; constructor; [|exact IH].
  apply nth_error_In in Hx. exact Hx.
Qed.

Lemma np_take_ok_length {A : Type} (a : list A) (idx : list nat) (r : list A) :
  np_take a idx = Ok r -> length r = length idx.
Proof.
  intros H. apply np_take_spec in H. symmetry. apply (Forall2_length H).
Qed.

Lemma constant_prominences (vctr : list Q) (e : extrema) :
  constant vctr -> find_peaks_troughs vctr = Ok e ->
  Forall (fun p => p == 0) (prms e).
Proof.
  intros Hc He.
  destruct (find_peaks_troughs_arrays vctr He)
    as [v0 [vl [Hv0 [Hvl [Hl [Hp [_ Hprm]]]]]]].
  cbv zeta in Hprm. rewrite Hprm, Forall_map. apply Forall_forall.
  intros j Hj. apply in_seq in Hj.
  set (b := v0 :: pks e ++ [vl]) in *.
  assert (Forall (fun x => In x vctr) b) as Hb.
  { unfold b. constructor; [apply nth_error_In in Hv0; exact Hv0|].
    apply Forall_app. split; [apply (np_take_values _ _ Hp)|].
    constructor; [apply nth_error_In in Hvl; exact Hvl | constructor]. }
  assert (length b = S (S (length (locs e)))) as Hlen.
  { unfold b. simpl. rewrite length_app. simpl.
    apply np_take_ok_length in Hp. rewrite Hp, Hl, !length_map. lia. }
  assert (forall i k, (i < length b)%nat -> (k < length b)%nat ->
                      Qabs (nth i b 0 - nth k b 0) == 0) as Hzero.
  { intros i k Hi Hk. rewrite Forall_forall in Hb.
    rewrite (Hc (nth i b 0) (nth k b 0)) by (apply Hb, nth_In; assumption).
    setoid_replace (nth k b 0 - nth k b 0) with 0 by ring. reflexivity. }
  destruct (py_min_spec (Qabs (nth (S j) b 0 - nth (S j - 1) b 0))
                        (Qabs (nth (S j + 1) b 0 - nth (S j) b 0)))
    as [[-> | ->] _]; apply Hzero; lia.
Qed.

(** X7: on a constant signal of N >= 2 samples every interior sample
    1..N-2 is reported as an extremum, each with prominence zero. *)
Theorem constant_signal_all_interior (vctr : list Q) :
  (2 <= length vctr)%nat -> constant vctr ->
  exists e,
    find_peaks_troughs vctr = Ok e /\
    locs e = map (fun i => Z.of_nat (S i)) (seq 0 (length vctr - 2)) /\
    Forall (fun p => p == 0) (prms e).
Proof.
  intros HN Hc.
  destruct (@find_peaks_troughs_closed vctr HN) as [e [He [Hl _]]].
  exists e. split; [exact He|]. split.
  - rewrite Hl, (constant_all_sign_changes Hc). reflexivity.
  - apply (constant_prominences Hc He).
Qed.

Lemma constant_signal_all_interior_witness :
  exists e,
    find_peaks_troughs (Qs [5; 5; 5; 5; 5]%Z) = Ok e /\
    locs e = [1; 2; 3]%Z /\
    Forall (fun p => p == 0) (prms e).
Proof.
  apply (@constant_signal_all_interior (Qs [5; 5; 5; 5; 5]%Z)).
  - simpl. lia.
  - intros a b Ha Hb. simpl in Ha, Hb.
    repeat (destruct Ha as [<- | Ha]; [|]); try contradiction;
      repeat (destruct Hb as [<- | Hb]; [|]); try contradiction; reflexivity.
Defined.

Lemma np_mul_zero_right (a b : list Q) :
  Forall (fun y => y == 0) b -> Forall (fun m => m == 0) (np_mul a b).
Proof.
  intros Hb. revert a. induction Hb as [|y b Hy _ IH]; intros [|x a].
  - constructor.
  - constructor.
  - constructor.
  - change (np_mul (x :: a) (y :: b)) with ((x * y) :: np_mul a b).
    constructor; [rewrite Hy; ring | apply IH].
Qed.

Lemma np_divide_zero (param : list Q) (d : Q) :
  d == 0 -> Forall (fun p => p == 0) param ->
  Forall (fun x => x = NaN) (np_divide param d).
Proof.
  intros Hd Hp. unfold np_divide. rewrite Forall_map.
  revert Hp. apply Forall_impl. intros p Hp. unfold fdiv.
  replace (Qeq_bool d 0) with true by (symmetry; apply Qeq_bool_iff, Hd).
  unfold Qsgn_pick, Qltb.
  replace (Qle_bool 0 p) with true
    by (symmetry; apply Qle_bool_iff; rewrite Hp; apply Qle_refl).
  replace (Qle_bool p 0) with true
    by (symmetry; apply Qle_bool_iff; rewrite Hp; apply Qle_refl).
  reflexivity.
Qed.

(** When every raw [param] value is zero the normalization divides zero by
    zero: the normalized series is all [nan]. *)
Lemma normalize_zero (pks prominence : list Q) :
  Forall (fun p => p == 0) (raw_param pks prominence) ->
  (2 <= length (raw_param pks prominence))%nat ->
  exists param,
    normalize pks prominence = Ok param /\ Forall (fun x => x = NaN) param.
Proof.
  intros Hz Hlen. unfold normalize.
  assert (length (rev (np_sort (raw_param pks prominence)))
          = length (raw_param pks prominence)) as Hl.
  { rewrite length_rev. symmetry. apply Permutation_length, np_sort_perm. }
  destruct (rev (np_sort (raw_param pks prominence))) as [|n0 [|n1 rest]] eqn:Hrev;
    try (simpl in Hl; lia).
  destruct (nrm_head _ Hrev) as [Hin0 [Hin1 _]].
  rewrite Forall_forall in Hz.
  pose proof (Hz _ Hin0) as H0. pose proof (Hz _ Hin1) as H1.
  cbn [getitem nth_error bind].
  assert (fdiv (Fin n0) (Fin n1) = NaN) as Hdiv.
  { assert (Forall (fun x => x = NaN) (np_divide [n0] n1)) as H
        by (apply np_divide_zero; [exact H1 | constructor; [exact H0 | constructor]]).
    inversion H; assumption. }
  rewrite Hdiv. cbn [fgtb fltb]. eexists. split; [reflexivity|].
  apply np_divide_zero; [exact H0 | apply Forall_forall, Hz].
Qed.

Lemma nan_never_selected (q : float64 -> bool) (param : list float64) :
  q NaN = false -> Forall (fun x => x = NaN) param -> np_where q param = [].
Proof.
  intros Hq Hp. unfold np_where. apply where_from_none.
  revert Hp. apply Forall_impl. intros x ->. exact Hq.
Qed.

Lemma zero_param_detectors_raise (sgnl : list Q) (e : extrema)
    (noisemult noisemin : float64) :
  find_peaks_troughs sgnl = Ok e ->
  Forall (fun p => p == 0) (raw_param (pks e) (prms e)) ->
  get_flexure_arrival sgnl = Raise IndexError /\
  get_extension_arrival sgnl noisemult noisemin = Raise IndexError.
Proof.
  intros He Hz. unfold get_flexure_arrival, get_extension_arrival.
  rewrite He. cbn [bind].
  destruct (Nat.lt_ge_cases (length (raw_param (pks e) (prms e))) 2) as [Hlt | Hge].
  - rewrite (normalize_too_few _ _ Hlt). split; reflexivity.
  - destruct (normalize_zero _ _ Hz Hge) as [param [Hn Hnan]].
    rewrite Hn. cbn [bind].
    destruct (find_signal_threshold_returns param) as [t Ht]. rewrite Ht. cbn [bind].
    rewrite (@nan_never_selected (fun p => fgtb p t) param);
      [| destruct t; reflexivity | exact Hnan].
    rewrite (@nan_never_selected (fun p => feqb p (Fin 1)) param);
      [| reflexivity | exact Hnan].
    split; reflexivity.
Qed.

(** X8: on every constant signal, of any length, both detectors raise
    IndexError: with fewer than two extrema at [nrm[0]]/[nrm[1]], otherwise
    because the normalization yields [nan] everywhere and no entry passes
    [param > thresh] or [param == 1]. *)
Theorem constant_signal_detectors_raise (sgnl : list Q)
    (noisemult noisemin : float64) :
  constant sgnl ->
  get_flexure_arrival sgnl = Raise IndexError /\
  get_extension_arrival sgnl noisemult noisemin = Raise IndexError.
Proof.
  intros Hc.
  destruct (Nat.lt_ge_cases (length sgnl) 2) as [Hlt | Hge].
  - unfold get_flexure_arrival, get_extension_arrival.
    rewrite (find_peaks_troughs_short sgnl Hlt). split; reflexivity.
  - destruct (@find_peaks_troughs_closed sgnl Hge) as [e [He _]].
    apply (@zero_param_detectors_raise sgnl e noisemult noisemin He).
    unfold raw_param, np_abs. rewrite Forall_map.
    pose proof (np_mul_zero_right (pks e) (constant_prominences Hc He)) as Hm.
    revert Hm. apply Forall_impl. intros m Hm. rewrite Hm. reflexivity.
Qed.

Lemma constant_signal_detectors_raise_witness :
  get_flexure_arrival (Qs [5; 5; 5; 5; 5]%Z) = Raise IndexError /\
  get_extension_arrival (Qs [5; 5; 5; 5; 5]%Z) default_noisemult default_noisemin
  = Raise IndexError.
Proof.
  apply (@constant_signal_detectors_raise (Qs [5; 5; 5; 5; 5]%Z)).
  intros a b Ha Hb. simpl in Ha, Hb.
  repeat (destruct Ha as [<- | Ha]; [|]); try contradiction;
    repeat (destruct Hb as [<- | Hb]; [|]); try contradiction; reflexivity.
Defined.

(** ** More on [find_signal_threshold] *)

(** X9: on a series of fewer than 45 samples the loop makes one pass and
    the result is the mean of the first 25 samples (of all samples if there
    are fewer; [nan] for the empty series). *)
Theorem short_series_threshold_is_first_window_mean (vctr : list float64) :
  (length vctr < 45)%nat ->
  find_signal_threshold vctr = Ok (np_mean (slice vctr 0 25)) /\
  (vctr = [] -> find_signal_threshold vctr = Ok NaN).
Proof.
  intros Hlen.
  assert (find_signal_threshold vctr = Ok (np_mean (slice vctr 0 25))) as Hres.
  { unfold find_signal_threshold. cbn [fst_loop]. unfold fst_iter.
    cbn [strt endd tmpthresh flag2 upcnt fst_init].
    set (m := np_mean (slice vctr 0 25)).
    replace (length vctr <? 25 + incr)%nat with true
      by (symmetry; apply Nat.ltb_lt; unfold incr; lia).
    destruct (fgtb m noiseMin); cbn [Nat.add Nat.ltb Nat.leb bind orb negb].
    - reflexivity.
    - rewrite andb_false_r. reflexivity. }
  split; [exact Hres|]. intros ->. reflexivity.
Qed.

Lemma short_series_threshold_is_first_window_mean_witness :
  find_signal_threshold [Fin 1; Fin 2; Fin 6]
  = Ok (np_mean (slice [Fin 1; Fin 2; Fin 6] 0 25)) /\
  ([Fin 1; Fin 2; Fin 6] = [] -> find_signal_threshold [Fin 1; Fin 2; Fin 6] = Ok NaN).
Proof.
  apply (@short_series_threshold_is_first_window_mean [Fin 1; Fin 2; Fin 6]).
  simpl. lia.
Defined.

Lemma fst_loop_window_mean (vctr : list float64) (fuel : nat) :
  forall prev s r,
    fst_inv vctr prev s ->
    (exists j, strt s = (20 * j)%nat /\ endd s = (20 * j + 25)%nat /\
               (j = 0%nat \/ (endd s <= length vctr)%nat)) ->
    (forall t, prev = Some t -> is_window_mean vctr t) ->
    fst_loop fuel vctr prev s = Ok r ->
    is_window_mean vctr r.
Proof.
  induction fuel as [|fuel IH]; intros prev s r Hinv [j [Hs [He Hj]]] Hprev Hrun;
    [discriminate|].
  destruct (fst_iter_spec Hinv)
    as [t [s' [f [Heq [Hs' [He' [Hgt [Hle [Hf Hinv']]]]]]]]].
  cbn [fst_loop] in Hrun. rewrite Heq in Hrun. cbn [bind] in Hrun.
  assert (is_window_mean vctr (window_mean vctr s)) as Hcur.
  { exists j. split; [rewrite <- He; exact Hj|].
    unfold window_mean. rewrite Hs, He. reflexivity. }
  assert (is_window_mean vctr t) as Ht.
  { destruct (fgtb (window_mean vctr s) noiseMin) eqn:Hm.
    - destruct (Hgt eq_refl) as [_ [Hp Hc]].
      destruct (upcnt s) as [|u].
      + rewrite (Hc eq_refl). exact Hcur.
      + apply Hprev, Hp. lia.
    - rewrite (proj1 (Hle eq_refl)). exact Hcur. }
  destruct f; [|injection Hrun as <-; exact Ht].
  apply (IH (Some t) s' r Hinv'); [| intros t' Ht'; injection Ht' as <-; exact Ht
                                  | exact Hrun].
  symmetry in Hf. apply negb_true_iff, orb_false_iff in Hf.
  destruct Hf as [Hf _]. apply Nat.ltb_ge in Hf.
  exists (S j). unfold incr in *. repeat split; lia.
Qed.

(** X10: whatever the series, the returned threshold is the mean of one of
    the windows [20k, 20k+25) that lie within the series (or of the first
    window when the series is shorter than 25 samples). *)
Theorem threshold_is_a_window_mean (vctr : list float64) :
  exists r, find_signal_threshold vctr = Ok r /\ is_window_mean vctr r.
Proof.
  destruct (find_signal_threshold_returns vctr) as [r Hr].
  exists r. split; [exact Hr|].
  apply (@fst_loop_window_mean vctr (S (length vctr)) None fst_init r).
  - apply fst_inv_init.
  - exists 0%nat. repeat split. left. reflexivity.
  - intros t Ht. discriminate Ht.
  - exact Hr.
Qed.

(** A qualifying window that opens a streak keeps its own mean. *)
Lemma fst_iter_opens_streak (vctr : list float64) (prev : option float64)
    (s : fst_state) :
  upcnt s = 0%nat ->
  fgtb (np_mean (slice vctr (strt s) (endd s))) noiseMin = true ->
  exists tmp,
    fst_iter vctr prev s
    = Ok (np_mean (slice vctr (strt s) (endd s)),
          mkFst (strt s + incr) (endd s + incr) tmp true 1,
          negb (length vctr <? endd s + incr)%nat).
Proof.
  intros Hup Hm. eexists. unfold fst_iter. rewrite Hm, Hup.
  change (1 <? 0 + 1)%nat with false. cbn [bind]. rewrite Hm.
  change (upcntLim <? 0 + 1)%nat with false.
  rewrite andb_false_r, orb_false_r. reflexivity.
Qed.

(** A qualifying window that continues a streak restores the threshold of
    the pass before. *)
Lemma fst_iter_continues_streak (vctr : list float64) (t : float64)
    (s : fst_state) (u : nat) :
  upcnt s = S u -> truthy t = true ->
  fgtb (np_mean (slice vctr (strt s) (endd s))) noiseMin = true ->
  fst_iter vctr (Some t) s
  = Ok (t, mkFst (strt s + incr) (endd s + incr) (Some t) true (S u + 1),
        negb ((length vctr <? endd s + incr)%nat
              || (fgtb t noiseMin && (upcntLim <? S u + 1)%nat))).
Proof.
  intros Hup Ht Hm. unfold fst_iter. rewrite Ht, Hm, Hup.
  replace (1 <? S u + 1)%nat with true by (symmetry; apply Nat.ltb_lt; lia).
  reflexivity.
Qed.

(** Three qualifying windows in a row from a loop head with no running
    streak end the loop with the mean of the first of them. *)
Lemma fst_loop_three_in_a_row (vctr : list float64) (fuel : nat)
    (prev : option float64) (s : fst_state) :
  upcnt s = 0%nat ->
  (endd s + 40 <= length vctr)%nat ->
  fgtb (np_mean (slice vctr (strt s) (endd s))) noiseMin = true ->
  fgtb (np_mean (slice vctr (strt s + 20) (endd s + 20))) noiseMin = true ->
  fgtb (np_mean (slice vctr (strt s + 40) (endd s + 40))) noiseMin = true ->
  fst_loop (S (S (S fuel))) vctr prev s
  = Ok (np_mean (slice vctr (strt s) (endd s))).
Proof.
  intros Hup Hlen H1 H2 H3.
  set (m1 := np_mean (slice vctr (strt s) (endd s))) in *.
  pose proof (fgtb_noiseMin_truthy _ H1) as Htruthy.
  destruct (fst_iter_opens_streak vctr prev s Hup H1) as [tmp Hit1].
  fold m1 in Hit1.
  replace (length vctr <? endd s + incr)%nat with false in Hit1
    by (symmetry; apply Nat.ltb_ge; unfold incr; lia).
  set (s1 := mkFst (strt s + incr) (endd s + incr) tmp true 1) in *.
  assert (fst_iter vctr (Some m1) s1
          = Ok (m1, mkFst (strt s1 + incr) (endd s1 + incr) (Some m1) true 2, true))
    as Hit2.
  { rewrite (@fst_iter_continues_streak vctr m1 s1 0); try reflexivity;
      [| exact Htruthy | exact H2].
    cbn [endd s1]. rewrite H1.
    replace (length vctr <? endd s + incr + incr)%nat with false
      by (symmetry; apply Nat.ltb_ge; unfold incr; lia).
    reflexivity. }
  set (s2 := mkFst (strt s1 + incr) (endd s1 + incr) (Some m1) true 2) in *.
  assert (fst_iter vctr (Some m1) s2
          = Ok (m1, mkFst (strt s2 + incr) (endd s2 + incr) (Some m1) true 3, false))
    as Hit3.
  { rewrite (@fst_iter_continues_streak vctr m1 s2 1); try reflexivity;
      [| exact Htruthy |].
    - rewrite H1. change (upcntLim <? 1 + 1 + 1)%nat with true.
      rewrite orb_true_r. reflexivity.
    - cbn [strt endd s2 s1]. unfold incr.
      replace (strt s + 20 + 20)%nat with (strt s + 40)%nat by lia.
      replace (endd s + 20 + 20)%nat with (endd s + 40)%nat by lia.
      exact H3. }
  cbn [fst_loop]. rewrite Hit1. cbn [bind negb]. rewrite Hit2. cbn [bind].
  rewrite Hit3. reflexivity.
Qed.

(** X11: when the series has at least 65 samples and the means of its first
    three windows [0,25), [20,45), [40,65) all exceed the noise floor, the
    loop stops after the third pass and returns the mean of the first
    window, not of the second or third. *)
Theorem three_loud_windows_return_first_mean (vctr : list float64) :
  (65 <= length vctr)%nat ->
  fgtb (np_mean (slice vctr 0 25)) noiseMin = true ->
  fgtb (np_mean (slice vctr 20 45)) noiseMin = true ->
  fgtb (np_mean (slice vctr 40 65)) noiseMin = true ->
  find_signal_threshold vctr = Ok (np_mean (slice vctr 0 25)).
Proof.
  intros Hlen H1 H2 H3. unfold find_signal_threshold.
  replace (S (length vctr)) with (S (S (S (length vctr - 2)))) by lia.
  apply (@fst_loop_three_in_a_row vctr (length vctr - 2) None fst_init);
    cbn [strt endd upcnt fst_init]; try assumption; try reflexivity; lia.
Qed.

Lemma three_loud_windows_return_first_mean_witness :
  find_signal_threshold (repeat (Fin 1) 20 ++ repeat (Fin 2) 45)
  = Ok (np_mean (slice (repeat (Fin 1) 20 ++ repeat (Fin 2) 45) 0 25)).
Proof.
  apply (@three_loud_windows_return_first_mean
           (repeat (Fin 1) 20 ++ repeat (Fin 2) 45)).
  - simpl. lia.
  - vm_compute. reflexivity.
  - vm_compute. reflexivity.
  - vm_compute. reflexivity.
Defined.

Lemma count_succ (n : nat) :
  inject_Z (Z.of_nat (S n)) == inject_Z (Z.of_nat n) + 1.
Proof. rewrite Nat2Z.inj_succ, <- Z.add_1_r, inject_Z_plus. reflexivity. Qed.

Lemma np_sum_within (lo hi : Q) (a : list float64) :
  Forall (within lo hi) a ->
  forall (acc : Q) (n : nat),
    lo * inject_Z (Z.of_nat n) <= acc <= hi * inject_Z (Z.of_nat n) ->
    exists r,
      fold_left fadd a (Fin acc) = Fin r /\
      lo * inject_Z (Z.of_nat (n + length a)) <= r
      <= hi * inject_Z (Z.of_nat (n + length a)).
Proof.
  induction 1 as [|x a [q [-> [Hlo Hhi]]] _ IH]; intros acc n [Hl Hh]; simpl.
  - exists acc. rewrite Nat.add_0_r. repeat split; assumption.
  - destruct (IH (acc + q) (S n)) as [r [Hr Hb]].
    + rewrite count_succ. split.
      * setoid_replace (lo * (inject_Z (Z.of_nat n) + 1))
          with (lo * inject_Z (Z.of_nat n) + lo) by ring.
        apply Qplus_le_compat; assumption.
      * setoid_replace (hi * (inject_Z (Z.of_nat n) + 1))
          with (hi * inject_Z (Z.of_nat n) + hi) by ring.
        apply Qplus_le_compat; assumption.
    + exists r. split; [exact Hr|].
      replace (n + S (length a))%nat with (S n + length a)%nat by lia. exact Hb.
Qed.

(** The mean of a non-empty slice of values in [lo, hi] lies in [lo, hi]. *)
Lemma np_mean_within (lo hi : Q) (a : list float64) :
  Forall (within lo hi) a -> a <> [] -> within lo hi (np_mean a).
Proof.
  intros Ha Hne. unfold np_mean, np_sum.
  destruct (@np_sum_within lo hi a Ha 0 0%nat) as [r [Hr [Hl Hh]]].
  { simpl. split; [setoid_replace (lo * 0) with 0 by ring
                  | setoid_replace (hi * 0) with 0 by ring]; apply Qle_refl. }
  rewrite Hr. simpl plus in Hl, Hh.
  assert (0 < inject_Z (Z.of_nat (length a))) as Hpos.
  { unfold Qlt. simpl. destruct a; [contradiction | simpl length; lia]. }
  unfold fdiv.
  destruct (Qeq_bool (inject_Z (Z.of_nat (length a))) 0) eqn:Hz.
  - apply Qeq_bool_iff in Hz. rewrite Hz in Hpos. discriminate Hpos.
  - eexists. split; [reflexivity|]. split.
    + apply Qle_shift_div_l; assumption.
    + apply Qle_shift_div_r; assumption.
Qed.

Lemma np_sum_nonnegative (a : list float64) :
  Forall nonnegative a ->
  forall acc, 0 <= acc ->
              exists r, fold_left fadd a (Fin acc) = Fin r /\ 0 <= r.
Proof.
  induction 1 as [|x a [q [-> Hq]] _ IH]; intros acc Hacc; simpl.
  - exists acc. split; [reflexivity | exact Hacc].
  - apply IH. setoid_replace 0 with (0 + 0) by ring.
    apply Qplus_le_compat; assumption.
Qed.

(** The mean of a non-empty slice of non-negative values is not negative. *)
Lemma np_mean_nonnegative (a : list float64) :
  Forall nonnegative a -> a <> [] -> nonnegative (np_mean a).
Proof.
  intros Ha Hne. unfold np_mean, np_sum.
  destruct (np_sum_nonnegative Ha (Qle_refl 0)) as [r [Hr Hpos]].
  rewrite Hr.
  assert (0 < inject_Z (Z.of_nat (length a))) as Hlen.
  { unfold Qlt. simpl. destruct a; [contradiction | simpl length; lia]. }
  unfold fdiv.
  destruct (Qeq_bool (inject_Z (Z.of_nat (length a))) 0) eqn:Hz.
  - apply Qeq_bool_iff in Hz. rewrite Hz in Hlen. discriminate Hlen.
  - eexists. split; [reflexivity|].
    apply Qle_shift_div_l; [exact Hlen|].
    setoid_replace (0 * inject_Z (Z.of_nat (length a))) with 0 by ring.
    exact Hpos.
Qed.

(** X12: on a non-empty series of finite samples none of which is negative,
    [find_signal_threshold] returns a threshold that is not negative. *)
Theorem threshold_not_negative (vctr : list float64) :
  vctr <> [] ->
  Forall nonnegative vctr ->
  exists r, find_signal_threshold vctr = Ok r /\ fleb (Fin 0) r = true.
Proof.
  intros Hne Hall.
  destruct (find_signal_threshold_returns vctr) as [r Hr].
  assert (is_window_mean vctr r) as [k [Hk ->]].
  { apply (@fst_loop_window_mean vctr (S (length vctr)) None fst_init r).
    - apply fst_inv_init.
    - exists 0%nat. repeat split. left. reflexivity.
    - intros t Ht. discriminate Ht.
    - exact Hr. }
  destruct (@np_mean_nonnegative (slice vctr (20 * k) (20 * k + 25)))
    as [t [Ht Hb]].
  - unfold slice. apply Forall_forall. intros x Hx.
    apply in_firstn, in_skipn in Hx. rewrite Forall_forall in Hall. apply Hall, Hx.
  - apply slice_nonempty; [lia|].
    destruct Hk as [-> | Hk]; [|lia].
    destruct vctr; [contradiction | simpl; lia].
  - eexists. split; [exact Hr|]. rewrite Ht. apply fleb_Fin, Hb.
Qed.

Lemma threshold_not_negative_witness :
  exists r,
    find_signal_threshold (repeat (Fin 1) 20 ++ repeat (Fin 2) 45) = Ok r /\
    fleb (Fin 0) r = true.
Proof.
  apply (@threshold_not_negative (repeat (Fin 1) 20 ++ repeat (Fin 2) 45)).
  - discriminate.
  - apply Forall_app. split; apply Forall_forall; intros x Hx;
      apply repeat_spec in Hx; subst x; eexists; (split; [reflexivity|]);
      discriminate.
Defined.

(** ** What the detectors can return and raise *)

Ltac bind_inv H :=
  match type of H with
  | bind ?m _ = _ =>
      let E := fresh "E" in
      destruct m eqn:E; cbn [bind] in H; try discriminate H
  end.

Lemma getitem_Ok {A : Type} (a : list A) (i : nat) (x : A) :
  getitem a i = Ok x -> nth_error a i = Some x.
Proof. unfold getitem. destruct (nth_error a i); congruence. Qed.

Lemma getitem_Raise {A : Type} (a : list A) (i : nat) (ex : pyexn) :
  getitem a i = Raise ex -> ex = IndexError.
Proof. unfold getitem. destruct (nth_error a i); congruence. Qed.

Lemma getitem_neg_Ok {A : Type} (a : list A) (k : nat) (x : A) :
  getitem_neg a k = Ok x -> nth_error a (length a - k) = Some x.
Proof.
  unfold getitem_neg. destruct (k <=? length a)%nat; [apply getitem_Ok | discriminate].
Qed.

Lemma getitem_neg_Raise {A : Type} (a : list A) (k : nat) (ex : pyexn) :
  getitem_neg a k = Raise ex -> ex = IndexError.
Proof.
  unfold getitem_neg. destruct (k <=? length a)%nat; [apply getitem_Raise | congruence].
Qed.

Lemma find_peaks_troughs_Raise (vctr : list Q) (ex : pyexn) :
  find_peaks_troughs vctr = Raise ex -> ex = IndexError.
Proof.
  intros H. destruct (Nat.lt_ge_cases (length vctr) 2) as [Hlt | Hge].
  - rewrite (find_peaks_troughs_short vctr Hlt) in H. congruence.
  - destruct (@find_peaks_troughs_closed vctr Hge) as [e [He _]]. congruence.
Qed.

Lemma normalize_Raise (pks prominence : list Q) (ex : pyexn) :
  normalize pks prominence = Raise ex -> ex = IndexError.
Proof.
  unfold normalize. intros H.
  bind_inv H; [|injection H as <-; apply (getitem_Raise _ _ E)].
  bind_inv H; [|injection H as <-; apply (getitem_Raise _ _ E0)].
  destruct (fgtb _ _) in H; discriminate H.
Qed.

Lemma sorted_lower_bound (l : list Z) :
  StronglySorted Z.lt l ->
  forall b i x, Forall (fun y => (b <= y)%Z) l ->
                nth_error l i = Some x -> (b + Z.of_nat i <= x)%Z.
Proof.
  induction 1 as [|y l Hs IH Hy]; intros b i x Hb Hx.
  - destruct i; discriminate.
  - inversion Hb as [|? ? Hby _]; subst. destruct i as [|i]; simpl in Hx.
    + injection Hx as <-. lia.
    + specialize (IH (y + 1)%Z i x). rewrite Nat2Z.inj_succ.
      assert (y + 1 + Z.of_nat i <= x)%Z; [|lia].
      apply IH; [|exact Hx]. revert Hy. apply Forall_impl. intros; lia.
Qed.

(** A location at position 1 or later in [locs] is at least 2. *)
Lemma later_location (sgnl : list Q) (e : extrema) (i : nat) (r : Z) :
  find_peaks_troughs sgnl = Ok e ->
  (1 <= i)%nat -> nth_error (locs e) i = Some r ->
  (2 <= r <= Z.of_nat (length sgnl) - 2)%Z.
Proof.
  intros He Hi Hr.
  pose proof (find_peaks_troughs_locations sgnl He) as Hb.
  pose proof (find_peaks_troughs_sorted sgnl He) as Hs.
  assert (1 + Z.of_nat i <= r)%Z.
  { apply (sorted_lower_bound Hs); [|exact Hr].
    revert Hb. apply Forall_impl. intros; lia. }
  rewrite Forall_forall in Hb. specialize (Hb r (nth_error_In _ _ Hr)). lia.
Qed.

(** X13: [get_flexure_arrival] returns either 0 or the location of an
    extremum other than the first one, hence a value between 2 and N-2; the
    only exception it raises is IndexError. *)
Theorem flexure_arrival_outcomes (sgnl : list Q) :
  match get_flexure_arrival sgnl with
  | Ok r =>
      r = 0%Z \/
      ((2 <= r <= Z.of_nat (length sgnl) - 2)%Z /\
       exists e i, find_peaks_troughs sgnl = Ok e /\ (1 <= i)%nat /\
                   nth_error (locs e) i = Some r)
  | Raise ex => ex = IndexError
  | OutOfFuel => False
  end.
Proof.
  destruct (get_flexure_arrival sgnl) as [r|ex|] eqn:H;
    [| | apply (get_flexure_arrival_returns sgnl H)];
    unfold get_flexure_arrival in H.
  - bind_inv H. bind_inv H. bind_inv H. bind_inv H.
    destruct (Nat.eqb_spec a2 0) as [-> | Hne]; [left; congruence|].
    right. apply getitem_Ok in H.
    assert (1 <= a2)%nat as Hi by lia.
    split; [apply (later_location sgnl E Hi H)|].
    exists a, a2. repeat split; assumption.
  - bind_inv H; [|injection H as <-; apply (find_peaks_troughs_Raise _ E)].
    bind_inv H; [|injection H as <-; apply (normalize_Raise _ _ E0)].
    destruct (find_signal_threshold_returns a0) as [t Ht]. rewrite Ht in H.
    cbn [bind] in H.
    bind_inv H; [|injection H as <-; apply (getitem_Raise _ _ E1)].
    destruct (a1 =? 0)%nat; [discriminate H | apply (getitem_Raise _ _ H)].
Qed.

Lemma branch_A_Ok (param : list float64) (locs : list Z)
    (tstmean : list (nat * float64)) (refnoisemean : float64) (r : Z) :
  branch_A param locs tstmean refnoisemean = Ok r ->
  r = 0%Z \/ exists i, (1 <= i)%nat /\ nth_error locs i = Some r.
Proof.
  unfold branch_A. intros H. bind_inv H. bind_inv H. bind_inv H.
  destruct (Nat.eqb_spec a1 0) as [-> | Hne]; [left; congruence|].
  right. apply getitem_Ok in H. unfold np_delete_prefix in H.
  rewrite nth_error_skipn in H. eexists. split; [|exact H]. lia.
Qed.

Lemma branch_A_Raise (param : list float64) (locs : list Z)
    (tstmean : list (nat * float64)) (refnoisemean : float64) (ex : pyexn) :
  branch_A param locs tstmean refnoisemean = Raise ex -> ex = IndexError.
Proof.
  unfold branch_A. intros H.
  bind_inv H; [|injection H as <-; apply (getitem_neg_Raise _ _ E)].
  bind_inv H; [|injection H as <-; apply (getitem_Raise _ _ E0)].
  bind_inv H; [|injection H as <-; apply (getitem_Raise _ _ E1)].
  destruct (a1 =? 0)%nat; [discriminate H | apply (getitem_Raise _ _ H)].
Qed.

Lemma pick_next_location_positive (locs : list Z) (idx : nat) :
  Forall (fun l => (1 <= l)%Z) locs ->
  pick_next_location locs idx = getitem locs (idx + 1).
Proof.
  intros Hpos. unfold pick_next_location, getitem.
  destruct (nth_error locs (idx + 1)) as [l|] eqn:Hl; cbn [bind]; [|reflexivity].
  rewrite Forall_forall in Hpos. specialize (Hpos l (nth_error_In _ _ Hl)).
  destruct (Z.eqb_spec l 0); [lia | reflexivity].
Qed.

Lemma branch_B_window_positive (locs : list Z) (n k : nat) :
  Forall (fun l => (1 <= l)%Z) locs ->
  Forall (fun l => (1 <= l)%Z) (np_delete_from (np_delete_prefix locs n) k).
Proof.
  intros H. apply Forall_forall. intros l Hl.
  unfold np_delete_from, np_delete_prefix in Hl.
  apply in_firstn, in_skipn in Hl. rewrite Forall_forall in H. apply H, Hl.
Qed.

Lemma branch_B_Ok (param : list float64) (locs : list Z)
    (tstmean : list (nat * float64)) (refnoisemean refmaxthresh : float64) (r : Z) :
  Forall (fun l => (1 <= l)%Z) locs ->
  branch_B param locs tstmean refnoisemean refmaxthresh = Ok r ->
  exists i, (1 <= i)%nat /\ nth_error locs i = Some r.
Proof.
  unfold branch_B. intros Hpos H. bind_inv H. bind_inv H. bind_inv H. bind_inv H.
  rewrite pick_next_location_positive in H by (apply branch_B_window_positive, Hpos).
  apply getitem_Ok in H. unfold np_delete_from, np_delete_prefix in H.
  rewrite nth_error_firstn in H.
  destruct (a2 + 1 <? a1 + 1)%nat; [|discriminate H].
  rewrite nth_error_skipn in H. eexists. split; [|exact H]. lia.
Qed.

Lemma branch_B_Raise (param : list float64) (locs : list Z)
    (tstmean : list (nat * float64)) (refnoisemean refmaxthresh : float64)
    (ex : pyexn) :
  Forall (fun l => (1 <= l)%Z) locs ->
  branch_B param locs tstmean refnoisemean refmaxthresh = Raise ex ->
  ex = IndexError.
Proof.
  unfold branch_B. intros Hpos H.
  bind_inv H; [|injection H as <-; apply (getitem_neg_Raise _ _ E)].
  bind_inv H; [|injection H as <-; apply (getitem_Raise _ _ E0)].
  bind_inv H; [|injection H as <-; apply (getitem_Raise _ _ E1)].
  bind_inv H; [|injection H as <-; apply (getitem_neg_Raise _ _ E2)].
  rewrite pick_next_location_positive in H by (apply branch_B_window_positive, Hpos).
  apply (getitem_Raise _ _ H).
Qed.

(** X14: [get_extension_arrival] returns either 0 or the location of an
    extremum other than the first one, hence a value between 2 and N-2; the
    only exceptions it raises are IndexError and ValueError. *)
Theorem extension_arrival_outcomes (sgnl : list Q) (noisemult noisemin : float64) :
  match get_extension_arrival sgnl noisemult noisemin with
  | Ok r =>
      r = 0%Z \/
      ((2 <= r <= Z.of_nat (length sgnl) - 2)%Z /\
       exists e i, find_peaks_troughs sgnl = Ok e /\ (1 <= i)%nat /\
                   nth_error (locs e) i = Some r)
  | Raise ex => ex = IndexError \/ ex = ValueError
  | OutOfFuel => False
  end.
Proof.
  destruct (get_extension_arrival sgnl noisemult noisemin) as [r|ex|] eqn:H;
    [| | apply (get_extension_arrival_returns sgnl noisemult noisemin H)];
    unfold get_extension_arrival in H.
  - bind_inv H. bind_inv H. bind_inv H. bind_inv H. bind_inv H. bind_inv H.
    bind_inv H. bind_inv H.
    assert (Forall (fun l => (1 <= l)%Z) (locs a)) as Hpos.
    { pose proof (find_peaks_troughs_locations sgnl E) as Hb.
      revert Hb. apply Forall_impl. intros; lia. }
    assert (r = 0%Z \/ exists i, (1 <= i)%nat /\ nth_error (locs a) i = Some r)
      as [-> | [i [Hi Hr]]].
    { destruct (fleb _ _) in H.
      - eapply branch_A_Ok; eassumption.
      - right. eapply branch_B_Ok; eassumption. }
    + left. reflexivity.
    + right. split; [apply (later_location sgnl E Hi Hr)|].
      exists a, i. repeat split; assumption.
  - bind_inv H; [|injection H as <-; left; apply (find_peaks_troughs_Raise _ E)].
    bind_inv H; [|injection H as <-; left; apply (normalize_Raise _ _ E0)].
    bind_inv H; [|injection H as <-; left; apply (getitem_Raise _ _ E1)].
    bind_inv H; [|injection H as <-; left; apply (getitem_Raise _ _ E2)].
    bind_inv H; [|injection H as <-; left; apply (getitem_neg_Raise _ _ E3)].
    bind_inv H;
      [|injection H as <-; right; unfold py_max_list in E4;
        destruct (slice a0 1 a3); congruence].
    bind_inv H;
      [|exfalso; destruct (segment_means_returns a0 a3
                             (py_max (fmul noisemult
                                        (py_max (np_mean (slice a0 1 a3)) noisemin)) a4))
          as [rows Hrows]; congruence].
    bind_inv H; [|injection H as <-; left; apply (getitem_neg_Raise _ _ E6)].
    assert (Forall (fun l => (1 <= l)%Z) (locs a)) as Hpos.
    { pose proof (find_peaks_troughs_locations sgnl E) as Hb.
      revert Hb. apply Forall_impl. intros; lia. }
    left. destruct (fleb _ _) in H.
    + eapply branch_A_Raise; eassumption.
    + eapply branch_B_Raise; eassumption.
Qed.

Lemma normalize_reference_length (pks prominence : list Q) :
  (2 <= length (raw_param pks prominence))%nat ->
  exists param,
    normalize pks prominence = Ok param /\
    length param = length (raw_param pks prominence).
Proof.
  intros Hlen. unfold normalize.
  assert (length (rev (np_sort (raw_param pks prominence)))
          = length (raw_param pks prominence)) as Hl.
  { rewrite length_rev. symmetry. apply Permutation_length, np_sort_perm. }
  destruct (rev (np_sort (raw_param pks prominence))) as [|n0 [|n1 rest]];
    try (simpl in Hl; lia).
  cbn [getitem nth_error bind].
  destruct (fgtb _ _); eexists; (split; [reflexivity|]);
    unfold np_divide; apply length_map.
Qed.

Lemma extension_raise_kinds (sgnl : list Q) (noisemult noisemin : float64)
    (ex : pyexn) :
  get_extension_arrival sgnl noisemult noisemin = Raise ex ->
  ex = IndexError \/ ex = ValueError.
Proof.
  intros H. destruct ex; [left; reflexivity | right; reflexivity |].
  exfalso. unfold get_extension_arrival in H.
  bind_inv H; [|injection H as ->; apply find_peaks_troughs_Raise in E; discriminate E].
  bind_inv H; [|injection H as ->; apply normalize_Raise in E0; discriminate E0].
  bind_inv H; [|injection H as ->; apply getitem_Raise in E1; discriminate E1].
  bind_inv H; [|injection H as ->; apply getitem_Raise in E2; discriminate E2].
  bind_inv H; [|injection H as ->; apply getitem_neg_Raise in E3; discriminate E3].
  bind_inv H;
    [|injection H as ->; unfold py_max_list in E4;
      destruct (slice a0 1 a3); discriminate E4].
  bind_inv H;
    [|destruct (segment_means_returns a0 a3
                  (py_max (fmul noisemult
                             (py_max (np_mean (slice a0 1 a3)) noisemin)) a4))
        as [rows Hrows]; congruence].
  bind_inv H; [|injection H as ->; apply getitem_neg_Raise in E6; discriminate E6].
  assert (Forall (fun l => (1 <= l)%Z) (locs a)) as Hpos.
  { pose proof (find_peaks_troughs_locations sgnl E) as Hb.
    revert Hb. apply Forall_impl. intros; lia. }
  destruct (fleb _ _) in H.
  - apply branch_A_Raise in H. discriminate H.
  - apply branch_B_Raise in H; [discriminate H | exact Hpos].
Qed.

Lemma extension_outcome_cases (sgnl : list Q) (noisemult noisemin : float64) :
  match get_extension_arrival sgnl noisemult noisemin with
  | Ok _ => True
  | Raise ex => ex = IndexError \/ ex = ValueError
  | OutOfFuel => False
  end.
Proof.
  destruct (get_extension_arrival sgnl noisemult noisemin) eqn:H.
  - exact I.
  - apply (extension_raise_kinds _ _ _ H).
  - apply (get_extension_arrival_returns sgnl noisemult noisemin H).
Qed.

(** ** Signals too short for [get_extension_arrival] *)

(** With fewer than 120 samples and every extremum before sample 12 the
    noise region [param[1:nnlocs]] is empty and [max()] raises, unless an
    earlier lookup already did. *)
Lemma extension_raises_on_empty_noise_region (sgnl : list Q)
    (noisemult noisemin : float64) :
  (length sgnl < 120)%nat ->
  (forall e, find_peaks_troughs sgnl = Ok e ->
             Forall (fun l => (l < 12)%Z) (locs e)) ->
  exists ex, get_extension_arrival sgnl noisemult noisemin = Raise ex.
Proof.
  intros HN Hearly.
  pose proof (extension_outcome_cases sgnl noisemult noisemin) as Hcases.
  destruct (get_extension_arrival sgnl noisemult noisemin) as [r|ex|] eqn:H;
    [| exists ex; reflexivity | contradiction].
  exfalso. clear Hcases. unfold get_extension_arrival in H.
  bind_inv H. bind_inv H. bind_inv H. bind_inv H. bind_inv H. bind_inv H.
  specialize (Hearly a eq_refl).
  pose proof (find_peaks_troughs_locations sgnl E) as Hb.
  pose proof (find_peaks_troughs_sorted sgnl E) as Hs.
  apply getitem_Ok in E2. apply getitem_neg_Ok in E3.
  apply nth_error_In in E3. unfold np_where in E3.
  apply where_from_In in E3. destruct E3 as [_ [l [Hl Hle]]].
  rewrite Nat.sub_0_r in Hl. apply Z.leb_le in Hle.
  assert (a2 < 12)%Z as Ha2.
  { rewrite Forall_forall in Hearly. apply Hearly, (nth_error_In _ _ E2). }
  assert (1 <= a2)%Z as Ha2'.
  { rewrite Forall_forall in Hb. specialize (Hb a2 (nth_error_In _ _ E2)). lia. }
  assert (l <= 2)%Z as Hl2.
  { assert (a2 / 4 < 3)%Z by (apply Z.div_lt_upper_bound; lia).
    assert (Z.of_nat (length sgnl) / 40 < 3)%Z by (apply Z.div_lt_upper_bound; lia).
    lia. }
  assert (1 + Z.of_nat a3 <= l)%Z as Hlow.
  { apply (sorted_lower_bound Hs); [|exact Hl].
    revert Hb. apply Forall_impl. intros; lia. }
  assert (slice a0 1 a3 = []) as Hempty.
  { unfold slice. replace (a3 - 1)%nat with 0%nat by lia. reflexivity. }
  rewrite Hempty in E4. discriminate E4.
Qed.

(** X15: [get_extension_arrival] cannot return on a signal of fewer than 120
    samples all of whose extrema lie before sample 12: it raises. *)
Theorem extension_needs_extremum_at_12_or_120_samples (sgnl : list Q)
    (noisemult noisemin : float64) :
  (length sgnl < 120)%nat ->
  (forall e, find_peaks_troughs sgnl = Ok e ->
             Forall (fun l => (l < 12)%Z) (locs e)) ->
  exists ex,
    get_extension_arrival sgnl noisemult noisemin = Raise ex /\
    (ex = IndexError \/ ex = ValueError).
Proof.
  intros HN Hearly.
  destruct (@extension_raises_on_empty_noise_region sgnl noisemult noisemin HN Hearly)
    as [ex Hex].
  exists ex. split; [exact Hex|].
  pose proof (extension_outcome_cases sgnl noisemult noisemin) as Hcases.
  rewrite Hex in Hcases. exact Hcases.
Qed.

Lemma extension_needs_extremum_at_12_or_120_samples_witness :
  exists ex,
    get_extension_arrival (Qs [0; 1; 0; 1; 2; 1]%Z) default_noisemult default_noisemin
    = Raise ex /\
    (ex = IndexError \/ ex = ValueError).
Proof.
  apply (@extension_needs_extremum_at_12_or_120_samples (Qs [0; 1; 0; 1; 2; 1]%Z)).
  - simpl. lia.
  - intros e He. vm_compute in He. injection He as <-.
    repeat constructor.
Defined.

(** X16: in particular [get_extension_arrival] raises on every signal of at
    most 13 samples. *)
Theorem extension_raises_up_to_13_samples (sgnl : list Q)
    (noisemult noisemin : float64) :
  (length sgnl <= 13)%nat ->
  exists ex, get_extension_arrival sgnl noisemult noisemin = Raise ex.
Proof.
  intros HN. apply extension_raises_on_empty_noise_region; [lia|].
  intros e He. pose proof (find_peaks_troughs_locations sgnl He) as Hb.
  revert Hb. apply Forall_impl. intros; lia.
Qed.

Lemma extension_raises_up_to_13_samples_witness :
  exists ex,
    get_extension_arrival (Qs [0; 1; 0; -1; 0; 1; 0; -1; 0]%Z)
      default_noisemult default_noisemin = Raise ex.
Proof.
  apply (@extension_raises_up_to_13_samples (Qs [0; 1; 0; -1; 0; 1; 0; -1; 0]%Z)).
  simpl. lia.
Defined.

(** ** The rows of the segment-mean loop *)

Lemma segment_loop_rows (param : list float64) (h : nat) (refmaxthresh : float64) :
  forall fuel acc strt rows,
    segment_loop fuel param h refmaxthresh acc (length acc) strt (strt + h) = Ok rows ->
    exists body last,
      rows = acc ++ body ++ [last] /\
      Forall (fun r => fgtb (snd r) refmaxthresh = false) body /\
      Forall (fun r => snd r = np_mean (slice param (fst r) (fst r + h)))
             (body ++ [last]).
Proof.
  induction fuel as [|fuel IH]; intros acc strt rows Hrun; [discriminate|].
  cbn [segment_loop] in Hrun.
  set (row := (strt, np_mean (slice param strt (strt + h)))) in *.
  assert (exists body last,
             acc ++ [row] = acc ++ body ++ [last] /\
             Forall (fun r => fgtb (snd r) refmaxthresh = false) body /\
             Forall (fun r => snd r = np_mean (slice param (fst r) (fst r + h)))
                    (body ++ [last])) as Hstop.
  { exists [], row. repeat split; repeat constructor. }
  destruct (length param <? strt + h + 1 + h)%nat;
    [injection Hrun as <-; exact Hstop|].
  rewrite getitem_last in Hrun. cbn [bind snd row] in Hrun.
  destruct (fgtb (np_mean (slice param strt (strt + h))) refmaxthresh) eqn:Hgt;
    [injection Hrun as <-; exact Hstop|].
  replace (length acc + 1)%nat with (length (acc ++ [row])) in Hrun
    by (rewrite length_app; reflexivity).
  apply IH in Hrun. destruct Hrun as [body [last [Hrows [Hbody Hmean]]]].
  exists (row :: body), last. split; [rewrite Hrows, <- app_assoc; reflexivity|].
  split; constructor; try assumption; reflexivity.
Qed.

(** X17: the segment-mean loop always returns at least one row; row [i]
    starts at offset [i * (floor(nnlocs/2) + 1)] and holds the mean of the
    [floor(nnlocs/2)] elements from that offset; no row but the last has a
    mean above [refmaxthresh]. *)
Theorem segment_means_rows (param : list float64) (nnlocs : nat)
    (refmaxthresh : float64) :
  exists rows n,
    segment_means param nnlocs refmaxthresh = Ok rows /\
    map fst rows = map (fun i => (i * (nnlocs / 2 + 1))%nat) (seq 0 (S n)) /\
    Forall (fun r => snd r = np_mean (slice param (fst r) (fst r + nnlocs / 2))) rows /\
    Forall (fun r => fgtb (snd r) refmaxthresh = false) (removelast rows).
Proof.
  destruct (segment_means_returns param nnlocs refmaxthresh) as [rows Hrows].
  pose proof Hrows as Hrun. unfold segment_means in Hrun.
  destruct (@segment_loop_stride param (nnlocs / 2)%nat refmaxthresh
              (S (length param)) [] 0%nat 0%nat rows Hrun) as [n Hn].
  destruct (@segment_loop_rows param (nnlocs / 2)%nat refmaxthresh
              (S (length param)) [] 0%nat rows Hrun)
    as [body [last [Heq [Hbody Hmean]]]].
  exists rows, n. split; [exact Hrows|]. split; [exact Hn|].
  simpl in Heq. subst rows. split; [exact Hmean|].
  rewrite removelast_last. exact Hbody.
Qed.

(** ** When the normalization succeeds *)

(** X18: the normalization raises exactly when there are fewer than two
    values to sort, and then IndexError; otherwise it returns a series with
    one entry per extremum. *)
Theorem normalize_outcomes (pks prominence : list Q) :
  ((length (raw_param pks prominence) < 2)%nat <->
   normalize pks prominence = Raise IndexError) /\
  (forall ex, normalize pks prominence = Raise ex -> ex = IndexError) /\
  (forall param, normalize pks prominence = Ok param ->
                 (2 <= length param)%nat /\
                 length param = Nat.min (length pks) (length prominence)).
Proof.
  split; [|split; [intros ex; apply normalize_Raise|]].
  - split; [apply normalize_too_few|]. intros H.
    destruct (Nat.lt_ge_cases (length (raw_param pks prominence)) 2) as [Hlt | Hge];
      [exact Hlt|].
    destruct (@normalize_reference_length pks prominence Hge) as [param [Hp _]].
    congruence.
  - intros param Hp.
    destruct (Nat.lt_ge_cases (length (raw_param pks prominence)) 2) as [Hlt | Hge].
    + rewrite (normalize_too_few _ _ Hlt) in Hp. discriminate Hp.
    + destruct (@normalize_reference_length pks prominence Hge) as [param' [Hp' Hl]].
      rewrite Hp in Hp'. injection Hp' as <-.
      rewrite Hl, <- raw_param_length. split; [exact Hge | reflexivity].
Qed.

(** ** Series that never leave the noise floor *)

Lemma fst_loop_quiet (vctr : list float64) (fuel : nat) :
  (forall k, fgtb (np_mean (slice vctr (20 * k) (20 * k + 25))) noiseMin = false) ->
  forall prev s j,
    fst_inv vctr prev s ->
    upcnt s = 0%nat ->
    strt s = (20 * j)%nat -> endd s = (20 * j + 25)%nat ->
    (j <= (length vctr - 25) / 20)%nat ->
    (1 <= fuel)%nat ->
    (length vctr < endd s + 20 * fuel)%nat ->
    fst_loop fuel vctr prev s
    = Ok (np_mean (slice vctr (20 * ((length vctr - 25) / 20))
                         (20 * ((length vctr - 25) / 20) + 25))).
Proof.
  intros Hquiet. set (K := ((length vctr - 25) / 20)%nat).
  assert (length vctr < 20 * K + 45)%nat as HK.
  { pose proof (Nat.div_mod_eq (length vctr - 25) 20) as Hdm.
    pose proof (Nat.mod_upper_bound (length vctr - 25) 20 ltac:(lia)).
    fold K in Hdm. lia. }
  assert (1 <= K -> 20 * K + 25 <= length vctr)%nat as HK'.
  { intros HK1. pose proof (Nat.div_mod_eq (length vctr - 25) 20) as Hdm.
    fold K in Hdm. lia. }
  induction fuel as [|fuel IH]; intros prev s j Hinv Hup Hs He Hj H1 Hfuel; [lia|].
  destruct (fst_iter_spec Hinv)
    as [t [s' [f [Heq [Hs' [He' [_ [Hle [Hf Hinv']]]]]]]]].
  assert (fgtb (window_mean vctr s) noiseMin = false) as Hm
    by (unfold window_mean; rewrite Hs, He; apply Hquiet).
  destruct (Hle Hm) as [Ht Hup'].
  cbn [fst_loop]. rewrite Heq. cbn [bind].
  assert (fgtb t noiseMin = false) as Ht' by (rewrite Ht; exact Hm).
  rewrite Ht' in Hf. cbn [andb] in Hf. rewrite orb_false_r in Hf.
  unfold incr in *.
  destruct (Nat.ltb_spec (length vctr) (endd s')) as [Hstop | Hgo];
    cbn [negb] in Hf; subst f.
  - assert (j = K) as -> by (destruct (Nat.eq_dec j K); [assumption | lia]).
    rewrite Ht. unfold window_mean. rewrite Hs, He. reflexivity.
  - apply (IH (Some t) s' (S j)); try assumption; lia.
Qed.

(** X19: when no window mean exceeds the noise floor, the result is the mean
    of the last window [20K, 20K+25) that the loop reads, with
    K = floor((N - 25)/20) (K = 0 when N < 25). *)
Theorem quiet_series_threshold_is_last_window_mean (vctr : list float64) :
  (forall k, fgtb (np_mean (slice vctr (20 * k) (20 * k + 25))) noiseMin = false) ->
  find_signal_threshold vctr
  = Ok (np_mean (slice vctr (20 * ((length vctr - 25) / 20))
                       (20 * ((length vctr - 25) / 20) + 25))).
Proof.
  intros Hquiet. unfold find_signal_threshold.
  apply (@fst_loop_quiet vctr (S (length vctr)) Hquiet None fst_init 0%nat);
    try reflexivity; try lia; try apply fst_inv_init;
    cbn [endd fst_init]; lia.
Qed.

Lemma quiet_series_threshold_is_last_window_mean_witness :
  find_signal_threshold (repeat (Fin 0) 70)
  = Ok (np_mean (slice (repeat (Fin 0) 70) (20 * ((70 - 25) / 20))
                       (20 * ((70 - 25) / 20) + 25))).
Proof.
  apply (@quiet_series_threshold_is_last_window_mean (repeat (Fin 0) 70)).
  intros k.
  assert (forall l, Forall (within 0 0) l -> fgtb (np_mean l) noiseMin = false) as H.
  { intros l Hl. destruct l as [|x l]; [reflexivity|].
    destruct (@np_mean_within 0 0 (x :: l) Hl) as [q [-> [_ Hq]]]; [discriminate|].
    unfold fgtb, fltb, noiseMin, Qltb. apply negb_false_iff, Qle_bool_iff.
    eapply Qle_trans; [exact Hq | discriminate]. }
  apply H. unfold slice. apply Forall_forall. intros x Hx.
  apply in_firstn, in_skipn, repeat_spec in Hx. subst x.
  exists 0. repeat split; apply Qle_refl.
Defined.
